(** * PyCartogram: the Dougenik-Chrisman-Niemeyer cartogram of [cartogram.py]

    A shallow embedding of the single function [cartogram] of
    [src/cartogram.py], and the properties of it that the specification
    states.

    The arithmetic of the program is NumPy's: IEEE binary64. The embedding
    is written against an interface [Arith] of the operations the source
    uses, of which [float64], Rocq's primitive binary64 floats, is the
    instance: what the program computes, roundings, NaN and infinities
    included. What holds of the control of the loop and of the arrays is
    proved for every arithmetic; what depends on numbers is proved in
    binary64.

    What belongs to libraries and not to the repository is kept apart:
    - shapely's [area] and [centroid] are the interface [Geometry]: the
      values GEOS has for a polygon whose coordinates are numbers. For a
      ring that holds a NaN GEOS has no centroid, and line 42 fails where
      the interface goes on with some value; what is stated of a whole call
      is therefore stated of a call that returns, or of an exception that
      the call raises whatever the centroids are;
    - NumPy's reductions ([sum], [mean], [dot]) are left folds; the order in
      which NumPy adds is its own business, and every concrete evaluation
      below is chosen so that no result stated depends on it;
    - shapely's [Polygon(shell, holes)] closes the shell when its first and
      last coordinates differ, takes the holes as they are, and raises
      [ValueError] on a shell whose first coordinate holds a NaN.

    Left out: a third coordinate, empty polygons and rings of fewer than
    four coordinates (shapely makes none, and the loop never shortens a
    ring), and the text of the line that [verbose] prints, of which the two
    numbers are kept. NumPy is the current one: a list of arrays of
    different lengths is not stacked into one array. *)

From Stdlib Require Import ZArith List Lia Bool Sorted.
From Stdlib Require Import Floats.
From stdpp Require Import base option list.

Set Warnings "-inexact-float".

(** ** Arithmetic interface *)

Class Arith (num : Type) := {
  add : num -> num -> num;
  sub : num -> num -> num;
  mul : num -> num -> num;
  div : num -> num -> num;
  sqrt : num -> num;
  eqb : num -> num -> bool;
  ltb : num -> num -> bool;
  leb : num -> num -> bool;
  of_Z : Z -> num;     (* int -> float64 conversion of Python ints and lengths *)
  pi : num;            (* np.pi *)
}.

Declare Scope num_scope.
Delimit Scope num_scope with num.
Infix "+" := add : num_scope.
Infix "-" := sub : num_scope.
Infix "*" := mul : num_scope.
Infix "/" := div : num_scope.
Infix "==" := eqb (at level 70, no associativity) : num_scope.
Infix "<?" := ltb : num_scope.
Infix "<=?" := leb : num_scope.

(** IEEE binary64, as NumPy computes. [np.pi] is the double nearest to pi. *)
#[export] Instance float64 : Arith float := {|
  add := PrimFloat.add;
  sub := PrimFloat.sub;
  mul := PrimFloat.mul;
  div := PrimFloat.div;
  sqrt := PrimFloat.sqrt;
  eqb := PrimFloat.eqb;
  ltb := PrimFloat.ltb;
  leb := PrimFloat.leb;
  of_Z := fun z => PrimFloat.of_uint63 (Uint63.of_Z z);
  pi := 0x1.921fb54442d18p+1%float;
|}.

(** ** Exceptions *)

(** [ValueError]: NumPy, on arrays whose shapes do not fit, and shapely, on
    a ring that cannot be closed. [IndexError]:
    index 0 of an empty [coord_idx] (line 70). [TypeError]: a reference
    that is not to the kind of array expected, which Python reports where
    it meets it, under this name or as an [AttributeError]. *)
Inductive exn := ValueError | IndexError | TypeError.

Inductive result (A : Type) :=
| Ok (a : A)
| Raise (e : exn).
Arguments Ok {A} a.
Arguments Raise {A} e.

Definition rbind {A B} (r : result A) (k : A -> result B) : result B :=
  match r with
  | Ok a => k a
  | Raise e => Raise e
  end.

Declare Scope result_scope.
Delimit Scope result_scope with result.
Notation "x <- r ;; k" := (rbind r (fun x => k))
  (at level 100, r at next level, right associativity) : result_scope.

(** [for x in xs: acc = body(acc, x)], stopping at the first exception. *)
Fixpoint for_fold {A S} (body : S -> A -> result S) (xs : list A) (acc : S) : result S :=
  match xs with
  | [] => Ok acc
  | x :: xs' => (acc' <- body acc x ;; for_fold body xs' acc')%result
  end.

(** [for i, x in enumerate(xs): xs[i] = f(x)] on an array updated in place:
    the array as the loop leaves it, and the first exception if there is
    one (the elements from there on are then as they were). *)
Fixpoint update_each {A} (f : A -> result A) (xs : list A) : list A * result unit :=
  match xs with
  | [] => ([], Ok tt)
  | x :: xs' =>
      match f x with
      | Raise e => (xs, Raise e)
      | Ok y => let '(ys, r) := update_each f xs' in (y :: ys, r)
      end
  end.

(** ** Data model *)

Section Model.
Context {num : Type} `{Arith num}.
Local Open Scope num_scope.

(** A row [[x, y]] of a coordinate matrix. *)
Definition point : Type := num * num.

(** A [shapely.geometry.Polygon]: the coordinates of the exterior ring and of
    the interior rings. *)
Record Polygon := mkPolygon {
  exterior : list point;
  interiors : list (list point);
}.

(** Elementwise [==] on both columns, as in
    [(coordinates[:, 0] == a) & (coordinates[:, 1] == b)]. *)
Definition point_eqb (p q : point) : bool := (p.1 == q.1) && (p.2 == q.2).

(** Lexicographic row order, the order [np.unique(..., axis=0)] sorts in. *)
Definition point_ltb (p q : point) : bool :=
  (p.1 <? q.1) || ((p.1 == q.1) && (p.2 <? q.2)).

(** *** The NumPy operations the source uses *)

Definition np_sum (xs : list num) : num := fold_left add xs (of_Z 0).

Definition np_mean (xs : list num) : num := np_sum xs / of_Z (Z.of_nat (length xs)).

Definition np_square (x : num) : num := x * x.

Definition isnan (x : num) : bool := negb (x == x).

(** [np.maximum] and [np.minimum] propagate NaN. *)
Definition np_maximum (x y : num) : num := if (y <=? x) || isnan x then x else y.
Definition np_minimum (x y : num) : num := if (x <=? y) || isnan x then x else y.

(** A binary operation on two 1-d arrays with broadcasting: equal lengths, or
    one of them of length 1; anything else is a [ValueError]. *)
Definition np_broadcast (f : num -> num -> num) (xs ys : list num) : result (list num) :=
  if Nat.eqb (length xs) (length ys) then Ok (zip_with f xs ys)
  else match xs, ys with
       | [x], _ => Ok (map (f x) ys)
       | _, [y] => Ok (map (fun x => f x y) xs)
       | _, _ => Raise ValueError
       end.

(** [np.max([xs, ys], axis=0) - np.min([xs, ys], axis=0)]: the two rows are
    stacked into one 2 x n array first, which needs equal lengths. *)
Definition np_stack_range (xs ys : list num) : result (list num) :=
  if Nat.eqb (length xs) (length ys)
  then Ok (zip_with (fun x y => np_maximum x y - np_minimum x y) xs ys)
  else Raise ValueError.

(** [np.unique(coordinates, axis=0)]: the rows sorted, each kept once. *)
Fixpoint insert_row (p : point) (rows : list point) : list point :=
  match rows with
  | [] => [p]
  | q :: rows' => if point_ltb q p then q :: insert_row p rows' else p :: rows
  end.

Definition sort_rows (rows : list point) : list point := foldr insert_row [] rows.

Fixpoint skip_repeats (p : point) (rows : list point) : list point :=
  match rows with
  | [] => []
  | q :: rows' => if point_eqb q p then skip_repeats p rows' else q :: skip_repeats q rows'
  end.

Definition np_unique (rows : list point) : list point :=
  match sort_rows rows with
  | [] => []
  | p :: rows' => p :: skip_repeats p rows'
  end.

(** [np.where(mask)[0]]: the positions where the mask holds, ascending. *)
Fixpoint np_where_from (i : nat) (mask : list bool) : list nat :=
  match mask with
  | [] => []
  | b :: mask' => (if b then [i] else []) ++ np_where_from (S i) mask'
  end.

Definition np_where (mask : list bool) : list nat := np_where_from 0 mask.

(** *** shapely *)

(** [polygon.area] and [polygon.centroid], as GEOS computes them for a
    polygon whose coordinates are numbers. *)
Class Geometry := {
  area : Polygon -> num;
  centroid : Polygon -> point;
}.

(** A linear ring is closed: when the first and last coordinates given
    differ, the first is repeated at the end. *)
Definition close_ring (coords : list point) : list point :=
  match coords, last coords with
  | first :: _, Some final => if point_eqb first final then coords else coords ++ [first]
  | _, _ => coords
  end.

(** [Polygon(coordinates, holes=holes)]. The shell is made a linear ring,
    closed if need be. A first coordinate that holds a NaN equals no
    coordinate, the copy of itself that closes the ring included: no closed
    ring comes out, and shapely raises [ValueError]. *)
Definition new_Polygon (coordinates : list point) (holes : list (list point)) : result Polygon :=
  match coordinates with
  | first :: _ =>
      if point_eqb first first then Ok (mkPolygon (close_ring coordinates) holes)
      else Raise ValueError
  | [] => Ok (mkPolygon [] holes)
  end.

(** ** Force field (lines 42-53) *)

(** What one iteration computes before it moves any coordinate. The fields
    carry the names of the source's variables. *)
Record metrics := mkMetrics {
  centroids : list point;
  total_area : num;
  desired : list num;
  radius : list num;
  mass : list num;
  mean_size_error : num;
  force_reduction_factor : num;
}.

Context `{Geometry}.

Definition force_field (polygons : list Polygon) (values : list num)
    (total_value epsilon : num) : result metrics :=
  let centroids := map centroid polygons in                                   (* 42 *)
  let area := map area polygons in                                            (* 43 *)
  let total_area := np_sum area in                                            (* 44 *)
  let desired := map (fun v => total_area * v / total_value) values in        (* 46 *)
  let desired := map (fun d => if d == of_Z 0 then epsilon else d) desired in (* 47 *)
  let radius := map (fun a => sqrt (a / pi)) area in                          (* 48 *)
  (mass <- np_broadcast sub (map (fun d => sqrt (d / pi)) desired)
                            (map (fun a => sqrt (a / pi)) area) ;;            (* 49 *)
   size_error <- np_stack_range desired area ;;                               (* 51 *)
   let mean_size_error := np_mean size_error in                               (* 52 *)
   let force_reduction_factor := of_Z 1 / (of_Z 1 + mean_size_error) in       (* 53 *)
   Ok (mkMetrics centroids total_area desired radius mass
                 mean_size_error force_reduction_factor))%result.

(** ** Coordinate displacement (lines 57-87) *)

(** The two force formulas of lines 77 and 78, for one centroid. *)
Definition far_field (mass radius distance : num) : num :=
  mass * radius / distance.

Definition near_field (mass radius distance : num) : num :=
  mass * np_square (distance / radius) * (of_Z 4 - of_Z 3 * distance / radius).

(** Lines 77-80 for one centroid: [Fijs] after the masked assignment and the
    scaling. *)
Definition scaled_force (frf mass radius distance : num) : num :=
  let Fij := far_field mass radius distance in
  let Fbij := near_field mass radius distance in
  (if distance <=? radius then Fbij else Fij) * (frf / distance).

(** Line 73 for one centroid. *)
Definition distance_to (new_coordinates c : point) : num :=
  sqrt (np_square (c.1 - new_coordinates.1) + np_square (c.2 - new_coordinates.2)).

(** Lines 73-84: the new value of the row [new_coordinates]. *)
Definition displaced (m : metrics) (new_coordinates : point) : point :=
  let distances := map (distance_to new_coordinates) (centroids m) in
  let Fijs := zip_with (fun d mr => scaled_force (force_reduction_factor m) mr.1 mr.2 d)
                       distances (zip (mass m) (radius m)) in
  let deltas := map (fun c => (new_coordinates.1 - c.1, new_coordinates.2 - c.2)) (centroids m) in
  let dot_x := np_sum (zip_with mul Fijs (map fst deltas)) in
  let dot_y := np_sum (zip_with mul Fijs (map snd deltas)) in
  (new_coordinates.1 + dot_x, new_coordinates.2 + dot_y).

(** The body of the loop over the unique rows (lines 68-84).
    [coord_idx] lists every position that holds the row [u];
    [new_coordinates] is a view of the row at [coord_idx[0]] alone, and [+=]
    writes through that view: that one row of [coordinates] changes. *)
Definition displace_row (m : metrics) (coordinates : list point) (u : point) : result (list point) :=
  let coord_idx := np_where (map (fun p => point_eqb p u) coordinates) in
  match coord_idx with
  | [] => Raise IndexError
  | i0 :: _ =>
      match coordinates !! i0 with
      | None => Raise IndexError
      | Some new_coordinates => Ok (<[i0 := displaced m new_coordinates]> coordinates)
      end
  end.

(** The body of the loop over the polygons (lines 63-87). *)
Definition displace_polygon (m : metrics) (polygon : Polygon) : result Polygon :=
  let coordinates := exterior polygon in
  let idx := np_unique coordinates in
  (coordinates' <- for_fold (displace_row m) idx coordinates ;;
   new_Polygon coordinates' (interiors polygon))%result.                      (* 87 *)

End Model.

Arguments point num : clear implicits.
Arguments Polygon num : clear implicits.
Arguments metrics num : clear implicits.
Arguments Geometry num : clear implicits.

(** ** The interpreter state: objects and standard output *)

(** The arrays behind a [GeoSeries] and behind a [Series]. Objects live in a
    heap and are named by their address: two names of one address are two
    references to one array, which is how an assignment [polygons[row] = ...]
    is seen (or not) by every holder of the array. *)
Abbreviation loc := nat.

Inductive obj (num : Type) :=
| GeoArray (polygons : list (Polygon num))
| FloatArray (values : list num).
Arguments GeoArray {num} polygons.
Arguments FloatArray {num} values.

(** What [print] has written: the iteration number and the error shown. *)
Record world (num : Type) := mkWorld {
  heap : list (obj num);
  stdout : list (nat * num);
}.
Arguments mkWorld {num} heap stdout.
Arguments heap {num} w.
Arguments stdout {num} w.

(** Computations that read and write the world and may raise. The world
    survives an exception, as it does in Python. *)
Definition M (num A : Type) : Type := world num -> world num * result A.

Section Monad.
Context {num : Type}.

Definition ret {A} (a : A) : M num A := fun w => (w, Ok a).

Definition bind {A B} (c : M num A) (k : A -> M num B) : M num B :=
  fun w => match c w with
           | (w', Ok a) => k a w'
           | (w', Raise e) => (w', Raise e)
           end.

Definition raise {A} (e : exn) : M num A := fun w => (w, Raise e).

Definition lift {A} (r : result A) : M num A := fun w => (w, r).

(** A new object, at the next free address. *)
Definition alloc (o : obj num) : M num loc :=
  fun w => (mkWorld (heap w ++ [o]) (stdout w), Ok (length (heap w))).

Definition load (l : loc) : M num (obj num) :=
  fun w => match heap w !! l with
           | Some o => (w, Ok o)
           | None => (w, Raise TypeError)
           end.

Definition store (l : loc) (o : obj num) : M num unit :=
  fun w => (mkWorld (<[l := o]> (heap w)) (stdout w), Ok tt).

Definition print (line : nat * num) : M num unit :=
  fun w => (mkWorld (heap w) (stdout w ++ [line]), Ok tt).

End Monad.

Declare Scope M_scope.
Delimit Scope M_scope with M.
Notation "x <- c ;; k" := (bind c (fun x => k))
  (at level 100, c at next level, right associativity) : M_scope.
Notation "c ;; k" := (bind c (fun _ => k))
  (at level 100, right associativity) : M_scope.

Section Objects.
Context {num : Type}.
Local Open Scope M_scope.

(** [series.copy()]: a new array with the same elements. *)
Definition copy (series : loc) : M num loc := o <- load series ;; alloc o.

(** The elements of a [GeoArray], read now. *)
Definition geo_items (polygons : loc) : M num (list (Polygon num)) :=
  o <- load polygons ;;
  match o with
  | GeoArray ps => ret ps
  | FloatArray _ => raise TypeError
  end.

Definition float_items (values : loc) : M num (list num) :=
  o <- load values ;;
  match o with
  | FloatArray vs => ret vs
  | GeoArray _ => raise TypeError
  end.

(** [polygons[row]]. *)
Definition get_item (polygons : loc) (row : nat) : M num (Polygon num) :=
  ps <- geo_items polygons ;;
  match ps !! row with
  | Some p => ret p
  | None => raise IndexError
  end.

(** [polygons[row] = polygon], in place. *)
Definition set_item (polygons : loc) (row : nat) (polygon : Polygon num) : M num unit :=
  ps <- geo_items polygons ;;
  if decide (row < length ps) then store polygons (GeoArray (<[row := polygon]> ps))
  else raise IndexError.

(** [for i in range(start, start + count): body(i)]. *)
Fixpoint for_range (start count : nat) (body : nat -> M num unit) : M num unit :=
  match count with
  | 0 => ret tt
  | S count' => body start ;; for_range (S start) count' body
  end.

End Objects.

(** ** The function [cartogram] *)

Section Cartogram.
Context {num : Type} `{Arith num} `{Geometry num}.
Local Open Scope M_scope.

Section Loop.
(** The locals the loop reads: the working array, the weights and their sum,
    and the parameters. *)
Variables (polygons : loc) (values : list num) (total_value : num).
Variables (max_size_error epsilon : num) (verbose : bool).

(** Lines 57-87: [for row, polygon in enumerate(polygons)]. *)
Definition displace_item (m : metrics num) (row : nat) : M num unit :=
  polygon <- get_item polygons row ;;
  polygon' <- lift (displace_polygon m polygon) ;;
  set_item polygons row polygon'.

Definition displace_rows (m : metrics num) (count : nat) : M num unit :=
  for_range 0 count (displace_item m).

(** Lines 36-87: [for iteration in range(itermax)], with [remaining]
    iterations to go; [previous_error] is the value the variable
    [mean_size_error] holds on entry to the iteration. *)
Fixpoint iterations (remaining iteration : nat) (previous_error : num) : M num unit :=
  match remaining with
  | 0 => ret tt
  | S remaining' =>
      if (previous_error <? max_size_error)%num then ret tt   (* break *)
      else
        ps <- geo_items polygons ;;
        m <- lift (force_field ps values total_value epsilon) ;;
        (if verbose then print (S iteration, mean_size_error m) else ret tt) ;;
        displace_rows m (length ps) ;;
        iterations remaining' (S iteration) (mean_size_error m)
  end.

End Loop.

Definition cartogram (arg_polygons arg_values : loc) (itermax : nat)
    (max_size_error epsilon : num) (verbose : bool) : M num loc :=
  polygons <- copy arg_polygons ;;                    (* line 30 *)
  values <- copy arg_values ;;                        (* line 31 *)
  vs <- float_items values ;;
  let total_value := np_sum vs in                     (* line 33 *)
  iterations polygons vs total_value max_size_error epsilon verbose
             itermax 0 (of_Z 100) ;;                  (* lines 34-87 *)
  ret polygons.                                       (* line 89: the series on the working array *)

(** *** The same computation on values

    One round is what an iteration does once it has passed the test of line
    37: the force field, then the displacement of every polygon. *)
Definition round (values : list num) (total_value epsilon : num)
    (ps : list (Polygon num)) : result (metrics num * list (Polygon num)) :=
  (m <- force_field ps values total_value epsilon ;;
   match update_each (displace_polygon m) ps with
   | (ps', Ok _) => Ok (m, ps')
   | (_, Raise e) => Raise e
   end)%result.

End Cartogram.

(** ** A geometry to run the program with *)

(** Modelled from the spec: shapely's [area] and [centroid] are not code of
    the repository. Section 4.1 of the specification gives the area by the
    shoelace formula over the exterior ring and the centroid as the
    area-weighted one of the same summation, interior rings ignored. On the
    rings used below (small integer coordinates) every intermediate value
    is exact in binary64, so that GEOS computes the same numbers; the one
    polygon with a hole is used only where the values of area and centroid
    do not matter. *)
Section Shoelace.
Context {num : Type} `{Arith num}.
Local Open Scope num_scope.

Definition edges (ring : list (point num)) : list (point num * point num) :=
  zip ring (tail ring).

Definition cross (e : point num * point num) : num :=
  e.1.1 * e.2.2 - e.2.1 * e.1.2.

(** Twice the signed area of a ring. *)
Definition signed_area2 (ring : list (point num)) : num :=
  np_sum (map cross (edges ring)).

Definition moment_x (ring : list (point num)) : num :=
  np_sum (map (fun e => (e.1.1 + e.2.1) * cross e) (edges ring)).

Definition moment_y (ring : list (point num)) : num :=
  np_sum (map (fun e => (e.1.2 + e.2.2) * cross e) (edges ring)).

Definition shoelace_area (p : Polygon num) : num :=
  let a2 := signed_area2 (exterior p) in
  (if a2 <? of_Z 0 then of_Z 0 - a2 else a2) / of_Z 2.

Definition shoelace_centroid (p : Polygon num) : point num :=
  let a2 := signed_area2 (exterior p) in
  (moment_x (exterior p) / (of_Z 3 * a2), moment_y (exterior p) / (of_Z 3 * a2)).

#[export] Instance shoelace : Geometry num := {|
  area := shoelace_area;
  centroid := shoelace_centroid;
|}.

End Shoelace.

(** ** The loop on values

    What [iterations] does to the working array, told without the heap: the
    lines printed, the array left, and the exception if there is one. It is
    related to the program by [iterations_rounds] below. *)
Section Rounds.
Context {num : Type} `{Arith num} `{Geometry num}.
Variables (values : list num) (total_value max_size_error epsilon : num).

Fixpoint rounds (remaining iteration : nat) (previous_error : num)
    (ps : list (Polygon num)) : list (nat * num) * list (Polygon num) * result unit :=
  match remaining with
  | 0 => ([], ps, Ok tt)
  | S remaining' =>
      if (previous_error <? max_size_error)%num then ([], ps, Ok tt)
      else match force_field ps values total_value epsilon with
           | Raise e => ([], ps, Raise e)
           | Ok m =>
               let line := (S iteration, mean_size_error m) in
               match update_each (displace_polygon m) ps with
               | (ps', Raise e) => ([line], ps', Raise e)
               | (ps', Ok _) =>
                   let '(lines, out, r) := rounds remaining' (S iteration) (mean_size_error m) ps' in
                   (line :: lines, out, r)
               end
           end
  end.

(** [k] rounds run one after the other, no test in between: the metrics of
    each, in order, and the array after the last. *)
Fixpoint history (k : nat) (ps : list (Polygon num)) : result (list (metrics num) * list (Polygon num)) :=
  match k with
  | 0 => Ok ([], ps)
  | S k' =>
      (mps <- round values total_value epsilon ps ;;
       rest <- history k' mps.2 ;;
       Ok (mps.1 :: rest.1, rest.2))%result
  end.

End Rounds.

(** The polygon [p] moved by the fields of successive rounds. *)
Definition displaced_by {num : Type} `{Arith num} (ms : list (metrics num))
    (p : Polygon num) : result (Polygon num) :=
  for_fold (fun q m => displace_polygon m q) ms p.

(** The lines [print] writes when [verbose] is set, and none otherwise. *)
Definition shown {A} (verbose : bool) (lines : list A) : list A :=
  if verbose then lines else [].

(** ** Notions used in the statements *)

Section Worlds.
Context {num : Type}.

(** The world after the loop: the working array and the lines printed. *)
Definition after (polygons : loc) (ps : list (Polygon num)) (lines : list (nat * num))
    (w : world num) : world num :=
  mkWorld (<[polygons := GeoArray ps]> (heap w)) (stdout w ++ lines).

Definition with_array (polygons : loc) (ps : list (Polygon num)) (w : world num) : world num :=
  mkWorld (<[polygons := GeoArray ps]> (heap w)) (stdout w).

(** The array a call returned, if it returned one. *)
Definition returned (run : world num * result loc) : option (list (Polygon num)) :=
  match run with
  | (w', Ok out) =>
      match heap w' !! out with
      | Some (GeoArray ps) => Some ps
      | _ => None
      end
  | (_, Raise _) => None
  end.

End Worlds.

(** Two kinds of binary64 value: a zero or NaN, an infinity or NaN. *)
Definition zero_or_nan (x : float) : Prop :=
  match Prim2SF x with
  | S754_zero _ | S754_nan => True
  | _ => False
  end.

Definition infinite_or_nan (x : float) : Prop :=
  match Prim2SF x with
  | S754_infinity _ | S754_nan => True
  | _ => False
  end.

(** A zero or a finite value: neither an infinity nor NaN. *)
Definition isfinite (x : float) : bool :=
  match Prim2SF x with
  | S754_zero _ | S754_finite _ _ _ => true
  | _ => false
  end.

(** The negative zero, [-0.0]. *)
Definition negative_zero (x : float) : bool :=
  match Prim2SF x with
  | S754_zero true => true
  | _ => false
  end.

(** The coordinate [c'] is the coordinate [c] kept: [c] as it was, [c] with
    0 added to it (the same number; the negative zero comes out as the
    positive one), or NaN. *)
Definition kept (c c' : float) : Prop := c' = c \/ c' = (c + 0)%float \/ c' = nan.

Definition kept_row (p p' : point float) : Prop := kept p.1 p'.1 /\ kept p.2 p'.2.

(** The polygon [p] with the weight [v] is in balance, in a series of total
    area [A] and total weight [T]: its area is above 0, its radius (line
    48) is finite, and the desired area that line 46 computes for it is its
    area. *)
Definition balanced {G : Geometry float} (A T : float) (p : Polygon float) (v : float) : Prop :=
  (0 <? area p)%float = true /\
  isfinite (PrimFloat.sqrt (area p / pi)%float) = true /\
  (A * v / T)%float = area p.

(** ** Inputs for the examples *)

(** The defaults of the signature: [itermax=5, max_size_error=1.0001,
    epsilon=0.01]. *)
Definition default_itermax : nat := 5.
Definition default_max_size_error : float := 1.0001%float.
Definition default_epsilon : float := 0.01%float.

Module Inputs.
Local Open Scope float_scope.

(** The two adjacent unit squares of the specification's scenario. *)
Definition west : Polygon float := mkPolygon [(0, 0); (1, 0); (1, 1); (0, 1); (0, 0)] [].
Definition east : Polygon float := mkPolygon [(1, 0); (2, 0); (2, 1); (1, 1); (1, 0)] [].

(** A square with a square hole. *)
Definition frame : Polygon float :=
  mkPolygon [(3, 0); (7, 0); (7, 4); (3, 4); (3, 0)]
            [[(4, 1); (4, 3); (6, 3); (6, 1); (4, 1)]].

(** A simple polygon whose centroid is one of its vertices: the triangle
    (0,1), (1,-1), (-1,-1) notched up to the origin. Its area is 1 and its
    centroid (0,0). *)
Definition dart : Polygon float := mkPolygon [(0, 1); (1, -1); (0, 0); (-1, -1); (0, 1)] [].

(** A square of area 4, far from the dart. *)
Definition far : Polygon float := mkPolygon [(10, 0); (12, 0); (12, 2); (10, 2); (10, 0)] [].

(** Two rectangles, of areas 3 and 7. *)
Definition plank : Polygon float := mkPolygon [(0, 0); (3, 0); (3, 1); (0, 1); (0, 0)] [].
Definition beam : Polygon float := mkPolygon [(0, 2); (7, 2); (7, 3); (0, 3); (0, 2)] [].

(** The caller's world: the polygon series at address 0, the value series
    at address 1, nothing printed. *)
Definition world_of (ps : list (Polygon float)) (vs : list float) : world float :=
  mkWorld [GeoArray ps; FloatArray vs] [].

(** The field of the first round on the dart and the far square with
    weights 4 and 1. *)
Definition dart_field : metrics float :=
  match force_field [dart; far] [4; 1] 5 default_epsilon with
  | Ok m => m
  | Raise _ => mkMetrics [] 0 [] [] [] 0 0
  end.

End Inputs.

(** ** Notions used in the further properties *)

(** A row with a NaN in it. *)
Definition nan_row {num : Type} `{Arith num} (p : point num) : bool :=
  isnan p.1 || isnan p.2.

(** A row that [==] finds equal to no row, itself included. *)
Definition unmatched {num : Type} `{Arith num} (u : point num) : Prop :=
  forall c, point_eqb c u = false /\ point_eqb u c = false.

(** No row equals both [u] and [u']. *)
Definition apart {num : Type} `{Arith num} (u u' : point num) : Prop :=
  forall c, point_eqb c u = true -> point_eqb c u' = false.

(** The place on the integer line of a binary64 value that is not NaN: a
    finite value [m * 2^e] of a valid encoding has [m < 2^53] and
    [-1074 <= e <= 971], so that the pairs [(e, m)] in their lexicographic
    order are the integers [(e + 1075) * 2^53 + m] in theirs; the infinities
    lie beyond. [<] and [==] on such values are [<] and [=] on their places
    ([ltb_place] and [eqb_place] below). *)
Definition place_of (s : spec_float) : Z :=
  match s with
  | S754_zero _ | S754_nan => 0
  | S754_infinity false => 2048 * 9007199254740992
  | S754_infinity true => - (2048 * 9007199254740992)
  | S754_finite false m e => (e + 1075) * 9007199254740992 + Zpos m
  | S754_finite true m e => - ((e + 1075) * 9007199254740992 + Zpos m)
  end.

Definition place (x : float) : Z := place_of (Prim2SF x).

(** The row [p] comes before the row [q] in the lexicographic order. *)
Definition before (p q : point float) : Prop :=
  (place p.1 < place q.1 \/ (place p.1 = place q.1 /\ place p.2 < place q.2))%Z.

(** * Properties *)

(** ** Loops over lists *)

Lemma update_each_length {A} (f : A -> result A) xs :
  length (update_each f xs).1 = length xs.
Proof.
  induction xs as [|x xs IH]; simpl; [done|].
  destruct (f x) as [y|]; [|done].
  destruct (update_each f xs) as [ys r]; simpl in *. by rewrite IH.
Qed.

Lemma update_each_lookup {A} (f : A -> result A) xs ys i x :
  update_each f xs = (ys, Ok tt) -> xs !! i = Some x ->
  exists y, ys !! i = Some y /\ f x = Ok y.
Proof.
  revert ys i; induction xs as [|x0 xs IH]; simpl; intros ys i Hys Hx; [done|].
  destruct (f x0) as [y0|] eqn:Hy0; [|done].
  destruct (update_each f xs) as [ys' r] eqn:Hrest. inversion Hys; subst.
  destruct i as [|i]; simpl in *.
  - inversion Hx; subst. by exists y0.
  - by apply IH.
Qed.

(** ** What [Polygon] returns and what it raises *)

Lemma new_Polygon_Ok {num : Type} `{Arith num} (coordinates : list (point num)) holes p :
  new_Polygon coordinates holes = Ok p -> p = mkPolygon (close_ring coordinates) holes.
Proof.
  unfold new_Polygon. destruct coordinates as [|first rest]; [by intros [= <-]|].
  destruct (point_eqb first first); [by intros [= <-]|done].
Qed.

Lemma new_Polygon_raises {num : Type} `{Arith num} (coordinates : list (point num)) holes e :
  new_Polygon coordinates holes = Raise e ->
  e = ValueError /\ exists first, head coordinates = Some first /\ point_eqb first first = false.
Proof.
  unfold new_Polygon. destruct coordinates as [|first rest]; [done|].
  destruct (point_eqb first first) eqn:Hfirst; [done|]. intros [= <-]. split; [done|].
  by exists first.
Qed.

(** ** The program and the loop on values *)

Section Refinement.
Context {num : Type} `{Arith num} `{Geometry num}.

Lemma with_array_lookup polygons ps ps0 (w : world num) :
  heap w !! polygons = Some (GeoArray ps0) ->
  heap (with_array polygons ps w) !! polygons = Some (GeoArray ps).
Proof.
  intros Hl; simpl. apply list_lookup_insert_eq. by eapply lookup_lt_Some.
Qed.

Lemma with_array_twice polygons ps ps' (w : world num) :
  with_array polygons ps (with_array polygons ps' w) = with_array polygons ps w.
Proof. unfold with_array; simpl. by rewrite list_insert_insert_eq. Qed.

Lemma with_array_same polygons ps (w : world num) :
  heap w !! polygons = Some (GeoArray ps) -> with_array polygons ps w = w.
Proof. intros Hl. destruct w as [h out]; unfold with_array; simpl in *. by rewrite list_insert_id. Qed.

Lemma after_nothing polygons ps (w : world num) :
  heap w !! polygons = Some (GeoArray ps) -> after polygons ps [] w = w.
Proof.
  intros Hl. destruct w as [h out]; unfold after; simpl in *.
  by rewrite list_insert_id, app_nil_r.
Qed.

Lemma shown_cons {A} verbose (line : A) lines :
  shown verbose (line :: lines) = shown verbose [line] ++ shown verbose lines.
Proof. by destruct verbose. Qed.

(** One pass of the body of the loop over the rows. *)
Lemma displace_item_run polygons m ps row p w :
  heap w !! polygons = Some (GeoArray ps) -> ps !! row = Some p ->
  displace_item polygons m row w =
    match displace_polygon m p with
    | Ok p' => (with_array polygons (<[row := p']> ps) w, Ok tt)
    | Raise e => (w, Raise e)
    end.
Proof.
  intros Hl Hp.
  unfold displace_item, get_item, set_item, geo_items, load, lift, bind, ret.
  rewrite Hl, Hp. destruct (displace_polygon m p) as [p'|e]; [|done].
  rewrite Hl. destruct (decide (row < length ps)) as [_|Hn]; [done|].
  apply lookup_lt_Some in Hp. lia.
Qed.

(** The loop over the rows writes [displace_polygon m] of each element in
    its place, up to the first exception. *)
Lemma for_range_rows polygons m todo : forall written w,
  heap w !! polygons = Some (GeoArray (written ++ todo)) ->
  for_range (length written) (length todo) (displace_item polygons m) w
  = (with_array polygons (written ++ (update_each (displace_polygon m) todo).1) w,
     (update_each (displace_polygon m) todo).2).
Proof.
  induction todo as [|p todo IH]; intros written w Hl; simpl.
  - rewrite app_nil_r in *. by rewrite with_array_same.
  - unfold bind. rewrite (displace_item_run _ _ _ _ p _ Hl) by (by apply list_lookup_middle).
    destruct (displace_polygon m p) as [p'|e] eqn:Hp; simpl.
    + replace (<[length written := p']> (written ++ p :: todo)) with ((written ++ [p']) ++ todo)
        by (rewrite insert_app_r_alt, Nat.sub_diag by lia; simpl; by rewrite <- app_assoc).
      specialize (IH (written ++ [p']) (with_array polygons ((written ++ [p']) ++ todo) w)).
      rewrite length_app, Nat.add_1_r in IH.
      rewrite IH by (by eapply with_array_lookup).
      destruct (update_each (displace_polygon m) todo) as [rest r]; simpl.
      by rewrite with_array_twice, <- app_assoc.
    + by rewrite with_array_same.
Qed.

Lemma displace_rows_run polygons m ps w :
  heap w !! polygons = Some (GeoArray ps) ->
  displace_rows polygons m (length ps) w
  = (with_array polygons (update_each (displace_polygon m) ps).1 w,
     (update_each (displace_polygon m) ps).2).
Proof. intros Hl. by apply (for_range_rows polygons m ps [] w). Qed.

Section Loop.
Variables (polygons : loc) (values : list num) (total_value : num).
Variables (max_size_error epsilon : num) (verbose : bool).

(** [iterations] and [rounds] are one loop: what is printed, the array left
    in the heap, and the exception if there is one. *)
Lemma iterations_rounds remaining : forall iteration previous_error ps w,
  heap w !! polygons = Some (GeoArray ps) ->
  iterations polygons values total_value max_size_error epsilon verbose
             remaining iteration previous_error w
  = let '(lines, out, r) := rounds values total_value max_size_error epsilon
                                   remaining iteration previous_error ps in
    (after polygons out (shown verbose lines) w, r).
Proof.
  induction remaining as [|remaining IH]; intros iteration previous_error ps w Hl; simpl.
  { destruct verbose; simpl; by rewrite after_nothing. }
  destruct (previous_error <? max_size_error)%num.
  { destruct verbose; simpl; by rewrite after_nothing. }
  unfold bind at 1, geo_items, load, bind at 1. rewrite Hl. unfold ret at 1.
  unfold bind at 1, lift.
  destruct (force_field ps values total_value epsilon) as [m|e]; simpl;
    [|destruct verbose; simpl; by rewrite after_nothing].
  unfold bind at 1.
  set (line := (S iteration, mean_size_error m)).
  assert (exists w1, (if verbose then print line else ret tt) w = (w1, Ok tt)
                     /\ heap w1 = heap w
                     /\ stdout w1 = stdout w ++ shown verbose [line])
    as (w1 & -> & Hh1 & Ho1).
  { destruct verbose; simpl; eexists; (split; [reflexivity|]); simpl; split; try done.
    by rewrite app_nil_r. }
  unfold bind at 1. rewrite (displace_rows_run polygons m ps w1) by (by rewrite Hh1).
  destruct (update_each (displace_polygon m) ps) as [ps1 [[]|e]] eqn:Hrows; simpl.
  - rewrite (IH (S iteration) (mean_size_error m) ps1 (with_array polygons ps1 w1))
      by (eapply with_array_lookup; by rewrite Hh1).
    destruct (rounds _ _ _ _ remaining (S iteration) (mean_size_error m) ps1)
      as [[lines out] r] eqn:Hrounds; simpl.
    f_equal. unfold after, with_array; simpl.
    rewrite list_insert_insert_eq, Hh1, Ho1, (shown_cons verbose line lines).
    by rewrite app_assoc.
  - f_equal. unfold after, with_array; simpl. by rewrite Hh1, Ho1.
Qed.

End Loop.

(** The whole call: the two copies are the only new objects, the working
    copy ends as [rounds] leaves it, and nothing else changes. *)
Lemma cartogram_rounds arg_polygons arg_values itermax max_size_error epsilon verbose ps vs w :
  heap w !! arg_polygons = Some (GeoArray ps) ->
  heap w !! arg_values = Some (FloatArray vs) ->
  cartogram arg_polygons arg_values itermax max_size_error epsilon verbose w
  = let '(lines, out, r) :=
        rounds vs (np_sum vs) max_size_error epsilon itermax 0 (of_Z 100) ps in
    (mkWorld (heap w ++ [GeoArray out; FloatArray vs]) (stdout w ++ shown verbose lines),
     match r with Ok _ => Ok (length (heap w)) | Raise e => Raise e end).
Proof.
  intros Hp Hv. unfold cartogram.
  unfold bind at 1, copy at 1, bind at 1, load at 1. rewrite Hp.
  unfold alloc at 1. unfold bind at 1, copy at 1, bind at 1, load at 1; simpl.
  rewrite lookup_app_l by (by eapply lookup_lt_Some). rewrite Hv.
  unfold alloc at 1; simpl.
  unfold bind at 1, float_items, bind at 1, load at 1; simpl.
  rewrite (list_lookup_middle (heap w ++ [GeoArray ps]) [] (FloatArray vs))
    by (by rewrite length_app, Nat.add_1_r).
  unfold ret at 1. unfold bind at 1.
  set (w2 := mkWorld ((heap w ++ [GeoArray ps]) ++ [FloatArray vs]) (stdout w)).
  rewrite (iterations_rounds (length (heap w)) vs (np_sum vs) max_size_error epsilon verbose
             itermax 0 (of_Z 100) ps w2)
    by (simpl; rewrite <- app_assoc; by apply list_lookup_middle).
  destruct (rounds _ _ _ _ _ _ _ _) as [[lines out] r].
  assert (after (length (heap w)) out (shown verbose lines) w2
          = mkWorld (heap w ++ [GeoArray out; FloatArray vs])
                    (stdout w ++ shown verbose lines)) as ->.
  { unfold after, w2; simpl. f_equal.
    rewrite <- app_assoc. by rewrite insert_app_r_alt, Nat.sub_diag by lia. }
  by destruct r.
Qed.

End Refinement.

(** ** What the loop does to the array *)

Section Structure.
Context {num : Type} `{Arith num} `{Geometry num}.

Lemma displace_polygon_interiors (m : metrics num) p p' :
  displace_polygon m p = Ok p' -> interiors p' = interiors p.
Proof.
  unfold displace_polygon. intros Hp.
  destruct (for_fold (displace_row m) (np_unique (exterior p)) (exterior p)); simpl in Hp; [|done].
  by rewrite (new_Polygon_Ok _ _ _ Hp).
Qed.

Lemma displaced_by_interiors (ms : list (metrics num)) : forall p p',
  displaced_by ms p = Ok p' -> interiors p' = interiors p.
Proof.
  unfold displaced_by. induction ms as [|m ms IH]; intros p p' Hp; simpl in Hp.
  - by inversion Hp.
  - destruct (displace_polygon m p) as [q|] eqn:Hq; simpl in Hp; [|done].
    rewrite (IH q p' Hp). by apply (displace_polygon_interiors m).
Qed.

Section Loop.
Variables (values : list num) (total_value max_size_error epsilon : num).

Lemma round_pointwise ps m ps' :
  round values total_value epsilon ps = Ok (m, ps') ->
  length ps' = length ps /\
  forall j p, ps !! j = Some p ->
    exists p', ps' !! j = Some p' /\ displace_polygon m p = Ok p'.
Proof.
  unfold round. intros Hr.
  destruct (force_field ps values total_value epsilon) as [m0|]; simpl in Hr; [|done].
  destruct (update_each (displace_polygon m0) ps) as [ps0 [[]|]] eqn:Hrows; [|done].
  inversion Hr; subst; clear Hr. split.
  - by rewrite <- (update_each_length (displace_polygon m) ps), Hrows.
  - intros j p Hj. by eapply update_each_lookup.
Qed.

(** After any number of rounds the array has its length, and each element
    is the one that was in its place, moved by the field of every round. *)
Lemma history_pointwise k : forall ps ms out,
  history values total_value epsilon k ps = Ok (ms, out) ->
  length ms = k /\ length out = length ps /\
  forall j p, ps !! j = Some p ->
    exists p', out !! j = Some p' /\ displaced_by ms p = Ok p'.
Proof.
  induction k as [|k IH]; intros ps ms out Hh; simpl in Hh.
  - inversion Hh; subst. repeat split. intros j p Hj. by exists p.
  - destruct (round values total_value epsilon ps) as [[m ps1]|] eqn:Hr; simpl in Hh; [|done].
    destruct (history values total_value epsilon k ps1) as [[ms1 out1]|] eqn:Hrest;
      simpl in Hh; [|done].
    inversion Hh; subst; clear Hh.
    destruct (IH ps1 ms1 out Hrest) as (Hk & Hlen & Hpt).
    destruct (round_pointwise ps m ps1 Hr) as (Hlen1 & Hpt1).
    split; [simpl; by rewrite Hk|]. split; [congruence|].
    intros j p Hj. destruct (Hpt1 j p Hj) as (p1 & Hp1 & Hd1).
    destruct (Hpt j p1 Hp1) as (p' & Hp' & Hd').
    exists p'. split; [done|]. unfold displaced_by in *; simpl. by rewrite Hd1.
Qed.

(** The loop is a number of whole rounds. Before each of them the test of
    line 37 read the error left by the round before (the initial one before
    the first) and found it not below the threshold; the loop ended on the
    count, or on the test reading the error of the last round run. *)
Lemma rounds_history remaining : forall iteration previous_error ps lines out,
  rounds values total_value max_size_error epsilon remaining iteration previous_error ps
    = (lines, out, Ok tt) ->
  exists ms,
    length ms <= remaining /\
    history values total_value epsilon (length ms) ps = Ok (ms, out) /\
    lines = zip (seq (S iteration) (length ms)) (map mean_size_error ms) /\
    (forall j e, j < length ms ->
       (previous_error :: map mean_size_error ms) !! j = Some e ->
       (e <? max_size_error)%num = false) /\
    (length ms < remaining ->
       exists e, (previous_error :: map mean_size_error ms) !! length ms = Some e /\
                 (e <? max_size_error)%num = true).
Proof.
  induction remaining as [|remaining IH]; intros iteration previous_error ps lines out Hr;
    simpl in Hr.
  { inversion Hr; subst. exists []. simpl. repeat split; try done; lia. }
  destruct (previous_error <? max_size_error)%num eqn:Htest.
  { inversion Hr; subst. exists []. simpl. repeat split; try done; try lia.
    intros _. by exists previous_error. }
  destruct (force_field ps values total_value epsilon) as [m|] eqn:Hff; [|done].
  destruct (update_each (displace_polygon m) ps) as [ps1 [[]|]] eqn:Hrows; [|done].
  destruct (rounds _ _ _ _ remaining (S iteration) (mean_size_error m) ps1)
    as [[lines1 out1] r1] eqn:Hrest.
  inversion Hr; subst; clear Hr.
  destruct (IH _ _ _ _ _ Hrest) as (ms & Hle & Hh & Hlines & Hpassed & Hstop).
  exists (m :: ms). simpl. repeat split.
  - lia.
  - unfold round. rewrite Hff; simpl. rewrite Hrows. simpl. by rewrite Hh.
  - by rewrite Hlines.
  - intros [|j] e Hj He; simpl in He.
    + by inversion He; subst.
    + apply (Hpassed j e); [lia|done].
  - intros Hlt. apply Hstop. lia.
Qed.

End Loop.
End Structure.

(** ** Order, count, holes and the caller's objects *)

Section Frame.
Context {num : Type} `{Arith num} `{Geometry num}.

(** The loop writes to the working array and to nothing else. *)
Lemma iterations_frame polygons values total_value max_size_error epsilon verbose
    remaining iteration previous_error (w : world num) :
  exists o,
    heap (iterations polygons values total_value max_size_error epsilon verbose
                     remaining iteration previous_error w).1
    = <[polygons := o]> (heap w).
Proof.
  destruct (heap w !! polygons) as [[ps|vs]|] eqn:Hl.
  - rewrite (iterations_rounds _ _ _ _ _ _ _ _ _ ps w Hl).
    destruct (rounds _ _ _ _ _ _ _ _) as [[lines out] r]. by exists (GeoArray out).
  - exists (FloatArray vs). rewrite list_insert_id by done.
    destruct remaining as [|remaining]; simpl; [done|].
    destruct (previous_error <? max_size_error)%num; [done|].
    unfold bind at 1, geo_items, load, bind at 1. by rewrite Hl.
  - exists (FloatArray []). rewrite list_insert_ge by (by apply lookup_ge_None).
    destruct remaining as [|remaining]; simpl; [done|].
    destruct (previous_error <? max_size_error)%num; [done|].
    unfold bind at 1, geo_items, load, bind at 1. by rewrite Hl.
Qed.

(** C10. The caller's collections are never mutated: whatever the arguments
    and whatever the outcome (a series returned or an exception raised), the
    heap after the call is the heap before it followed by new objects, so
    the polygon series and the value series passed hold the elements they
    held; and the series returned is at an address that did not exist
    before the call. *)
Theorem cartogram_leaves_arguments_alone
    arg_polygons arg_values itermax max_size_error epsilon verbose (w : world num) :
  exists fresh,
    heap (cartogram arg_polygons arg_values itermax max_size_error epsilon verbose w).1
      = heap w ++ fresh /\
    (forall l, l < length (heap w) ->
       heap (cartogram arg_polygons arg_values itermax max_size_error epsilon verbose w).1 !! l
       = heap w !! l) /\
    (forall out,
       (cartogram arg_polygons arg_values itermax max_size_error epsilon verbose w).2 = Ok out ->
       out = length (heap w) /\ heap w !! out = None).
Proof.
  assert (forall fresh w' (r : result loc),
            heap w' = heap w ++ fresh ->
            (forall out, r = Ok out -> out = length (heap w)) ->
            heap w' = heap w ++ fresh /\
            (forall l, l < length (heap w) -> heap w' !! l = heap w !! l) /\
            (forall out, r = Ok out -> out = length (heap w) /\ heap w !! out = None))
    as Hgoal.
  { intros fresh w' r Hh Hr. split; [done|]. split.
    - intros l Hl. by rewrite Hh, lookup_app_l.
    - intros out Hout. rewrite (Hr out Hout). split; [done|]. by apply lookup_ge_None. }
  destruct (cartogram arg_polygons arg_values itermax max_size_error epsilon verbose w)
    as [w' r] eqn:Hrun; simpl.
  unfold cartogram in Hrun.
  unfold bind at 1, copy at 1, bind at 1, load at 1 in Hrun.
  destruct (heap w !! arg_polygons) as [o|] eqn:Hp;
    [|inversion Hrun; subst; exists []; apply Hgoal; [by rewrite app_nil_r|done]].
  unfold alloc at 1 in Hrun.
  unfold bind at 1, copy at 1, bind at 1, load at 1 in Hrun; simpl in Hrun.
  destruct ((heap w ++ [o]) !! arg_values) as [o2|] eqn:Hv;
    [|inversion Hrun; subst; exists [o]; apply Hgoal; [done|done]].
  unfold alloc at 1 in Hrun; simpl in Hrun.
  unfold bind at 1, float_items, bind at 1, load at 1 in Hrun; simpl in Hrun.
  rewrite (list_lookup_middle (heap w ++ [o]) [] o2) in Hrun
    by (by rewrite length_app, Nat.add_1_r).
  destruct o2 as [ps2|vs];
    [inversion Hrun; subst; exists [o; GeoArray ps2]; apply Hgoal;
     [simpl; by rewrite <- app_assoc|done]|].
  unfold ret at 1 in Hrun. unfold bind at 1 in Hrun.
  set (w2 := mkWorld ((heap w ++ [o]) ++ [FloatArray vs]) (stdout w)) in Hrun.
  destruct (iterations_frame (length (heap w)) vs (np_sum vs) max_size_error epsilon verbose
              itermax 0 (of_Z 100) w2) as [o' Ho'].
  destruct (iterations _ _ _ _ _ _ _ _ _ w2) as [w3 [[]|e]]; simpl in *;
    inversion Hrun; subst; clear Hrun.
  - exists [o'; FloatArray vs]. apply Hgoal; [|by intros ? [= <-]].
    rewrite Ho', <- app_assoc. by rewrite insert_app_r_alt, Nat.sub_diag by lia.
  - exists [o'; FloatArray vs]. apply Hgoal; [|done].
    rewrite Ho', <- app_assoc. by rewrite insert_app_r_alt, Nat.sub_diag by lia.
Qed.

(** C8. For every valid input (a series of N polygons and a series of
    weights) on which the call returns, the series returned holds exactly N
    polygons in the order of the input: the polygon at position i is the
    input polygon of position i, displaced by the force field of every round
    that ran (at most [itermax] of them). *)
Theorem cartogram_keeps_count_and_order
    arg_polygons arg_values itermax max_size_error epsilon verbose ps vs (w w' : world num) out :
  heap w !! arg_polygons = Some (GeoArray ps) ->
  heap w !! arg_values = Some (FloatArray vs) ->
  cartogram arg_polygons arg_values itermax max_size_error epsilon verbose w = (w', Ok out) ->
  exists output ms,
    heap w' !! out = Some (GeoArray output) /\
    length output = length ps /\
    length ms <= itermax /\
    history vs (np_sum vs) epsilon (length ms) ps = Ok (ms, output) /\
    forall i p, ps !! i = Some p ->
      exists p', output !! i = Some p' /\ displaced_by ms p = Ok p'.
Proof.
  intros Hp Hv Hrun. rewrite (cartogram_rounds _ _ _ _ _ _ ps vs w Hp Hv) in Hrun.
  destruct (rounds vs (np_sum vs) max_size_error epsilon itermax 0 (of_Z 100) ps)
    as [[lines output] [[]|e]] eqn:Hrounds; [|done].
  inversion Hrun; subst; clear Hrun.
  destruct (rounds_history _ _ _ _ _ _ _ _ _ _ Hrounds) as (ms & Hle & Hh & _).
  destruct (history_pointwise _ _ _ _ _ _ _ Hh) as (_ & Hlen & Hpt).
  exists output, ms. simpl. split; [by apply list_lookup_middle|done].
Qed.

(** C9. For every input polygon with interior rings, on every call that
    returns and for any number of iterations, the polygon returned at the
    same position has the interior rings of the input polygon: only the
    exterior ring is ever modified. *)
Theorem cartogram_keeps_holes
    arg_polygons arg_values itermax max_size_error epsilon verbose ps vs (w w' : world num) out :
  heap w !! arg_polygons = Some (GeoArray ps) ->
  heap w !! arg_values = Some (FloatArray vs) ->
  cartogram arg_polygons arg_values itermax max_size_error epsilon verbose w = (w', Ok out) ->
  exists output,
    heap w' !! out = Some (GeoArray output) /\
    forall i p, ps !! i = Some p ->
      exists p', output !! i = Some p' /\ interiors p' = interiors p.
Proof.
  intros Hp Hv Hrun. rewrite (cartogram_rounds _ _ _ _ _ _ ps vs w Hp Hv) in Hrun.
  destruct (rounds vs (np_sum vs) max_size_error epsilon itermax 0 (of_Z 100) ps)
    as [[lines output] [[]|e]] eqn:Hrounds; [|done].
  inversion Hrun; subst; clear Hrun.
  destruct (rounds_history _ _ _ _ _ _ _ _ _ _ Hrounds) as (ms & _ & Hh & _).
  destruct (history_pointwise _ _ _ _ _ _ _ Hh) as (_ & _ & Hpt).
  exists output. simpl. split; [by apply list_lookup_middle|].
  intros i p Hi. destruct (Hpt i p Hi) as (p' & Hp' & Hd).
  exists p'. split; [done|]. by apply (displaced_by_interiors ms).
Qed.

End Frame.

(** ** Exceptions and the order of the loop *)

Section Control.
Context {num : Type} `{Arith num} `{Geometry num}.

(** The force field raises exactly when the counts differ. *)
Lemma force_field_mismatch (ps : list (Polygon num)) vs total_value epsilon :
  length ps <> length vs -> force_field ps vs total_value epsilon = Raise ValueError.
Proof.
  intros Hne. unfold force_field, np_broadcast, np_stack_range.
  rewrite !length_map.
  destruct (Nat.eqb_spec (length vs) (length ps)) as [Heq|_]; [by rewrite Heq in Hne|].
  by destruct (map _ (map _ (map _ vs))) as [|? [|? ?]], (map _ (map area ps)) as [|? [|? ?]].
Qed.

Lemma force_field_match (ps : list (Polygon num)) vs total_value epsilon :
  length ps = length vs -> exists m, force_field ps vs total_value epsilon = Ok m.
Proof.
  intros Heq. unfold force_field, np_broadcast, np_stack_range.
  rewrite !length_map.
  destruct (Nat.eqb_spec (length vs) (length ps)) as [_|Hne]; [|by rewrite Heq in Hne].
  simpl. by eexists.
Qed.

Lemma displace_row_raises (m : metrics num) coordinates u e :
  displace_row m coordinates u = Raise e -> e = IndexError.
Proof.
  unfold displace_row.
  destruct (np_where _) as [|i0 ?]; [by intros [= <-]|].
  destruct (coordinates !! i0); [done|by intros [= <-]].
Qed.

Lemma displace_rows_raise (m : metrics num) idx : forall coordinates e,
  for_fold (displace_row m) idx coordinates = Raise e -> e = IndexError.
Proof.
  induction idx as [|u idx IH]; intros coordinates e; simpl; [done|].
  destruct (displace_row m coordinates u) as [coordinates'|e'] eqn:Hrow; simpl.
  - apply IH.
  - intros [= <-]. by apply (displace_row_raises m coordinates u).
Qed.

(** The body of the loop over the polygons raises what line 70 raises and
    what [Polygon] raises. *)
Lemma displace_polygon_raises (m : metrics num) p e :
  displace_polygon m p = Raise e -> e = IndexError \/ e = ValueError.
Proof.
  unfold displace_polygon.
  destruct (for_fold (displace_row m) (np_unique (exterior p)) (exterior p))
    as [coordinates'|e'] eqn:Hrows; simpl.
  - intros [-> _]%new_Polygon_raises. by right.
  - intros [= <-]. left. by apply (displace_rows_raise m _ _ _ Hrows).
Qed.

Lemma force_field_raises (ps : list (Polygon num)) vs total_value epsilon e :
  force_field ps vs total_value epsilon = Raise e -> e = ValueError.
Proof.
  destruct (decide (length ps = length vs)) as [Heq|Hne].
  - destruct (force_field_match ps vs total_value epsilon Heq) as [m ->]. done.
  - rewrite force_field_mismatch by done. by intros [= <-].
Qed.

(** C3, as the code has it. The function checks nothing. A count of weights
    that differs from the count of polygons is met by NumPy, as a
    [ValueError] raised while the force field of the first iteration is
    computed: after the two copies are made, before anything is printed and
    before any coordinate is moved. It is met only if that iteration runs
    ([itermax] at least 1 and the initial error 100 not below
    [max_size_error]): otherwise the same input is accepted, and the copy of
    the polygons is returned. *)
Theorem count_mismatch_raises_in_the_first_iteration
    arg_polygons arg_values itermax max_size_error epsilon verbose ps vs (w : world num) :
  heap w !! arg_polygons = Some (GeoArray ps) ->
  heap w !! arg_values = Some (FloatArray vs) ->
  length ps <> length vs ->
  (0 < itermax -> (of_Z 100 <? max_size_error)%num = false ->
   cartogram arg_polygons arg_values itermax max_size_error epsilon verbose w
   = (mkWorld (heap w ++ [GeoArray ps; FloatArray vs]) (stdout w), Raise ValueError)) /\
  (itermax = 0 \/ (of_Z 100 <? max_size_error)%num = true ->
   cartogram arg_polygons arg_values itermax max_size_error epsilon verbose w
   = (mkWorld (heap w ++ [GeoArray ps; FloatArray vs]) (stdout w), Ok (length (heap w)))).
Proof.
  intros Hp Hv Hne. rewrite (cartogram_rounds _ _ _ _ _ _ ps vs w Hp Hv). split.
  - intros Hpos Htest. destruct itermax as [|n]; [lia|]. simpl.
    rewrite Htest, force_field_mismatch by done.
    destruct verbose; simpl; by rewrite app_nil_r.
  - intros Hno.
    assert (rounds vs (np_sum vs) max_size_error epsilon itermax 0 (of_Z 100) ps
            = ([], ps, Ok tt)) as ->.
    { destruct itermax as [|n]; [done|]. destruct Hno as [|Htest]; [done|].
      simpl. by rewrite Htest. }
    destruct verbose; simpl; by rewrite app_nil_r.
Qed.

(** C2, as the code has it. The test of line 37 comes first in an iteration
    and reads the error the iteration before left (the initial 100 in the
    first); metrics, force field and displacement follow, the displacement
    without a further test. So a call that returns has run [k <= itermax]
    whole rounds; the test found the initial error and the error of each of
    the first [k - 1] rounds not below [max_size_error]; and it stopped at
    [k = itermax], or at the test reading the error computed in round [k],
    whose displacement had been applied. The first iteration runs when
    [itermax >= 1] and 100 is not below [max_size_error], not otherwise. *)
Theorem cartogram_tests_the_previous_error
    arg_polygons arg_values itermax max_size_error epsilon ps vs (w w' : world num) out :
  heap w !! arg_polygons = Some (GeoArray ps) ->
  heap w !! arg_values = Some (FloatArray vs) ->
  cartogram arg_polygons arg_values itermax max_size_error epsilon true w = (w', Ok out) ->
  exists ms output,
    length ms <= itermax /\
    history vs (np_sum vs) epsilon (length ms) ps = Ok (ms, output) /\
    heap w' !! out = Some (GeoArray output) /\
    stdout w' = stdout w ++ zip (seq 1 (length ms)) (map mean_size_error ms) /\
    (forall j e, j < length ms ->
       (of_Z 100 :: map mean_size_error ms) !! j = Some e ->
       (e <? max_size_error)%num = false) /\
    (length ms < itermax ->
       exists e, (of_Z 100 :: map mean_size_error ms) !! length ms = Some e /\
                 (e <? max_size_error)%num = true).
Proof.
  intros Hp Hv Hrun. rewrite (cartogram_rounds _ _ _ _ _ _ ps vs w Hp Hv) in Hrun.
  destruct (rounds vs (np_sum vs) max_size_error epsilon itermax 0 (of_Z 100) ps)
    as [[lines output] [[]|e]] eqn:Hrounds; [|done].
  inversion Hrun; subst; clear Hrun.
  destruct (rounds_history _ _ _ _ _ _ _ _ _ _ Hrounds)
    as (ms & Hle & Hh & Hlines & Hpassed & Hstop).
  exists ms, output. simpl. repeat split; try done.
  - by apply list_lookup_middle.
  - by rewrite Hlines.
Qed.

End Control.

(** ** The rows of one ring *)

Section Rows.
Context {num : Type} `{Arith num}.

Lemma insert_row_elem (x p : point num) rows :
  x ∈ insert_row p rows -> x = p \/ x ∈ rows.
Proof.
  induction rows as [|q rows IH]; simpl.
  - intros ->%list_elem_of_singleton. by left.
  - destruct (point_ltb q p).
    + intros [->|Hx]%elem_of_cons; [right; left|].
      destruct (IH Hx) as [->|Hx']; [by left|by right; right].
    + intros [->|Hx]%elem_of_cons; [by left|by right].
Qed.

Lemma sort_rows_elem (x : point num) rows : x ∈ sort_rows rows -> x ∈ rows.
Proof.
  induction rows as [|p rows IH]; simpl; [done|].
  intros [->|Hx]%insert_row_elem; [left|right; by apply IH].
Qed.

Lemma skip_repeats_elem (x : point num) rows : forall p, x ∈ skip_repeats p rows -> x ∈ rows.
Proof.
  induction rows as [|q rows IH]; intros p; simpl; [done|].
  destruct (point_eqb q p).
  - intros Hx. right. by apply (IH p).
  - intros [->|Hx]%elem_of_cons; [left|right; by apply (IH q)].
Qed.

(** Every row of [np.unique(coordinates, axis=0)] is a row of [coordinates]. *)
Lemma np_unique_elem (x : point num) rows : x ∈ np_unique rows -> x ∈ rows.
Proof.
  unfold np_unique. intros Hx. apply sort_rows_elem.
  destruct (sort_rows rows) as [|p rows']; [done|].
  apply elem_of_cons in Hx as [->|Hx]; [left|right; by apply (skip_repeats_elem x rows' p)].
Qed.

(** [np.where(mask)[0][0]] is a position where the mask holds, if there is one. *)
Lemma np_where_from_first mask : forall k i,
  mask !! i = Some true ->
  exists i0 rest, np_where_from k mask = (k + i0)%nat :: rest /\ mask !! i0 = Some true.
Proof.
  induction mask as [|b mask IH]; intros k i Hi; [done|]. simpl.
  destruct b; simpl.
  - exists 0%nat, (np_where_from (S k) mask). by rewrite Nat.add_0_r.
  - destruct i as [|i]; [done|]. simpl in Hi.
    destruct (IH (S k) i Hi) as (i0 & rest & -> & Hi0).
    exists (S i0), rest. split; [f_equal; lia|done].
Qed.

Lemma map_lookup {A B} (f : A -> B) l i x : l !! i = Some x -> map f l !! i = Some (f x).
Proof. intros Hx. change (map f l) with (f <$> l). by rewrite list_lookup_fmap, Hx. Qed.

Lemma map_lookup_Some {A B} (f : A -> B) l i y :
  map f l !! i = Some y -> exists x, l !! i = Some x /\ y = f x.
Proof.
  change (map f l) with (f <$> l). rewrite list_lookup_fmap.
  destruct (l !! i) as [x|]; [|done]. intros [= <-]. by exists x.
Qed.

Lemma close_ring_closed (coords : list (point num)) :
  Forall (fun v => point_eqb v v = true) coords ->
  head coords = last coords -> close_ring coords = coords.
Proof.
  intros Hrefl Hc. unfold close_ring. destruct coords as [|first rest]; [done|].
  simpl in Hc. rewrite <- Hc. inversion Hrefl; subst. by rewrite H2.
Qed.

End Rows.

(** C1, in general: one pass of the loop over the unique rows writes one
    position of the matrix, the first that holds the row; every other
    position, the other holders of the same row among them, keeps what it
    had. *)
Lemma displace_row_writes_one_position {num : Type} `{Arith num}
    (m : metrics num) coordinates u coordinates' :
  displace_row m coordinates u = Ok coordinates' ->
  exists i0, forall j, j <> i0 -> coordinates' !! j = coordinates !! j.
Proof.
  unfold displace_row. destruct (np_where _) as [|i0 rest]; [done|].
  destruct (coordinates !! i0) as [p|]; [|done]. intros [= <-].
  exists i0. intros j Hj. by apply list_lookup_insert_ne.
Qed.

(** ** Binary64: what the program computes *)

Section Machine.
Local Open Scope float_scope.

Lemma Prim2SF_nan x : Prim2SF x = S754_nan -> x = nan.
Proof. intros Hx. apply Prim2SF_inj. by rewrite Hx. Qed.

Lemma SFcompare_Eq_finite s1 m1 e1 s2 m2 e2 :
  SFcompare (S754_finite s1 m1 e1) (S754_finite s2 m2 e2) = Some Eq ->
  s1 = s2 /\ m1 = m2 /\ e1 = e2.
Proof.
  simpl. destruct s1, s2; try done; destruct (Z.compare e1 e2) eqn:He; try done;
    apply Z.compare_eq in He; subst; intros [= Hc]; repeat split.
  - destruct (Pos.compare_cont Eq m1 m2) eqn:Hm; try done. by apply Pos.compare_eq in Hm.
  - by apply Pos.compare_eq in Hc.
Qed.

Lemma sub_of_equal x y : (x =? y) = true -> zero_or_nan (x - y) /\ zero_or_nan (y - x).
Proof.
  rewrite FloatAxioms.eqb_spec. unfold zero_or_nan, SFeqb. rewrite !FloatAxioms.sub_spec.
  destruct (SFcompare (Prim2SF x) (Prim2SF y)) as [[]|] eqn:Hc; try done. intros _.
  destruct (Prim2SF x) as [sx|sx| |sx mx ex], (Prim2SF y) as [sy|sy| |sy my ey];
    simpl in Hc; try done.
  all: try (by repeat match goal with s : bool |- _ => destruct s end).
  change (SFcompare (S754_finite sx mx ex) (S754_finite sy my ey) = Some Eq) in Hc.
  apply SFcompare_Eq_finite in Hc as (-> & -> & ->).
  unfold SF64sub, SFsub. by rewrite Z.sub_diag.
Qed.

Lemma square_of_zero_or_nan x : zero_or_nan x -> zero_or_nan (x * x).
Proof.
  unfold zero_or_nan. rewrite FloatAxioms.mul_spec. by destruct (Prim2SF x).
Qed.

Lemma add_of_zero_or_nan x y : zero_or_nan x -> zero_or_nan y -> zero_or_nan (x + y).
Proof.
  unfold zero_or_nan. rewrite FloatAxioms.add_spec.
  destruct (Prim2SF x) as [[]| | |], (Prim2SF y) as [[]| | |]; done.
Qed.

Lemma sqrt_of_zero_or_nan x : zero_or_nan x -> zero_or_nan (PrimFloat.sqrt x).
Proof.
  unfold zero_or_nan. rewrite FloatAxioms.sqrt_spec. by destruct (Prim2SF x).
Qed.

Lemma div_by_zero_or_nan x y : zero_or_nan y -> infinite_or_nan (x / y).
Proof.
  unfold zero_or_nan, infinite_or_nan. rewrite FloatAxioms.div_spec.
  destruct (Prim2SF x), (Prim2SF y); done.
Qed.

Lemma mul_by_infinite_or_nan x y : infinite_or_nan y -> infinite_or_nan (x * y).
Proof.
  unfold infinite_or_nan. rewrite FloatAxioms.mul_spec.
  destruct (Prim2SF x), (Prim2SF y); done.
Qed.

Lemma infinite_times_zero x y : infinite_or_nan x -> zero_or_nan y -> x * y = nan.
Proof.
  unfold infinite_or_nan, zero_or_nan. intros Hx Hy. apply Prim2SF_nan.
  rewrite FloatAxioms.mul_spec. destruct (Prim2SF x), (Prim2SF y); done.
Qed.

Lemma add_nan_l x : nan + x = nan.
Proof. apply Prim2SF_nan. rewrite FloatAxioms.add_spec. done. Qed.

Lemma add_nan_r x : x + nan = nan.
Proof. apply Prim2SF_nan. rewrite FloatAxioms.add_spec. by destruct (Prim2SF x). Qed.


Lemma fold_add_from_nan (xs : list float) : fold_left PrimFloat.add xs nan = nan.
Proof. induction xs as [|x xs IH]; simpl; [done|]. by rewrite add_nan_l. Qed.

Lemma fold_add_nan (xs : list float) j : forall acc,
  xs !! j = Some nan -> fold_left PrimFloat.add xs acc = nan.
Proof.
  revert j; induction xs as [|x xs IH]; intros j acc Hj; [done|].
  destruct j as [|j]; simpl in *.
  - inversion Hj; subst. by rewrite add_nan_r, fold_add_from_nan.
  - by apply (IH j).
Qed.

Lemma np_sum_nan (xs : list float) j : xs !! j = Some nan -> np_sum xs = nan.
Proof. apply fold_add_nan. Qed.

Lemma distance_on_centroid (v c : point float) :
  point_eqb v c = true -> zero_or_nan (distance_to v c).
Proof.
  unfold point_eqb. intros [H1 H2]%andb_true_iff.
  apply sub_of_equal in H1 as [_ H1]. apply sub_of_equal in H2 as [_ H2].
  unfold distance_to, np_square; simpl.
  apply sqrt_of_zero_or_nan, add_of_zero_or_nan; by apply square_of_zero_or_nan.
Qed.

Lemma scaled_force_on_centroid frf mj rj d :
  zero_or_nan d -> infinite_or_nan (scaled_force frf mj rj d).
Proof.
  intros Hd. unfold scaled_force; simpl.
  by apply mul_by_infinite_or_nan, div_by_zero_or_nan.
Qed.

(** C4, as the code has it. Nothing guards a distance of zero. For a
    vertex that coincides ([==] on both coordinates) with the centroid of
    some polygon [j], the distance is 0 (or NaN), the scaled force
    [F * (force_reduction_factor / distance)] of that polygon is infinite or
    NaN whatever its mass and radius, its product with the offset
    [vertex - centroid], which is 0, is NaN, and NaN stays in the sum: both
    coordinates of the displaced vertex are NaN, whatever the other
    polygons contribute. *)
Theorem displaced_on_centroid_is_nan (m : metrics float) (v c : point float) j mj rj :
  centroids m !! j = Some c -> mass m !! j = Some mj -> radius m !! j = Some rj ->
  point_eqb v c = true ->
  displaced m v = (nan, nan).
Proof.
  intros Hc Hm Hr Hv. unfold displaced.
  assert (zip_with (fun d mr => scaled_force (force_reduction_factor m) mr.1 mr.2 d)
            (map (distance_to v) (centroids m)) (zip (mass m) (radius m)) !! j
          = Some (scaled_force (force_reduction_factor m) mj rj (distance_to v c))) as HF.
  { apply lookup_zip_with_Some. exists (distance_to v c), (mj, rj). split; [done|]. split.
    - by apply map_lookup.
    - apply lookup_zip_with_Some. by exists mj, rj. }
  pose proof (scaled_force_on_centroid (force_reduction_factor m) mj rj _
                (distance_on_centroid v c Hv)) as Hinf.
  apply andb_true_iff in Hv as [H1 H2].
  apply sub_of_equal in H1 as [H1 _]. apply sub_of_equal in H2 as [H2 _].
  f_equal.
  - rewrite (np_sum_nan _ j); [apply add_nan_r|].
    apply lookup_zip_with_Some. eexists _, (v.1 - c.1). split; [|split; [exact HF|]].
    + symmetry. by apply infinite_times_zero.
    + by apply (map_lookup fst _ _ (v.1 - c.1, v.2 - c.2)),
                  (map_lookup (fun c0 : point float => (v.1 - c0.1, v.2 - c0.2))).
  - rewrite (np_sum_nan _ j); [apply add_nan_r|].
    apply lookup_zip_with_Some. eexists _, (v.2 - c.2). split; [|split; [exact HF|]].
    + symmetry. by apply infinite_times_zero.
    + by apply (map_lookup snd _ _ (v.1 - c.1, v.2 - c.2)),
                  (map_lookup (fun c0 : point float => (v.1 - c0.1, v.2 - c0.2))).
Qed.

End Machine.

(** ** Runs in binary64 *)

Section MachineRuns.
Import Inputs.
Local Open Scope float_scope.

(** C1, on the code. Two adjacent unit squares, weights 1 and 3, one
    iteration. Positions 0 and 4 of the exterior ring of the first square
    hold the same coordinate (0,0), the ring being closed. In the polygon
    returned position 0 holds the displaced coordinate, which is no longer
    (0,0), and position 4 still holds (0,0): the displacement computed for
    the coordinate was applied to its first position only. *)
Theorem closing_coordinate_left_behind :
  exterior west !! 0%nat = Some (0, 0) /\
  exterior west !! 4%nat = Some (0, 0) /\
  exists p q rest,
    returned (cartogram 0 1 1 default_max_size_error default_epsilon false
                        (world_of [west; east] [1; 3]))
      = Some (p :: rest) /\
    exterior p !! 0%nat = Some q /\
    point_eqb q (0, 0) = false /\
    exterior p !! 4%nat = Some (0, 0).
Proof.
  split; [reflexivity|]. split; [reflexivity|].
  eexists _, _, _. split; [vm_compute; reflexivity|].
  split; [reflexivity|]. split; [vm_compute; reflexivity|reflexivity].
Qed.

(** The scenario of the specification: two adjacent unit squares, weights 1
    and 3. The total area is 2, the desired areas are 0.5 and 1.5, the first
    square is to shrink (negative mass) and the second to grow. *)
Example scenario_force_field :
  exists m mass_west mass_east,
    force_field [west; east] [1; 3] (np_sum [1; 3]) default_epsilon = Ok m /\
    total_area m = 2 /\
    desired m = [0.5; 1.5] /\
    mass m = [mass_west; mass_east] /\
    (mass_west <? 0) = true /\
    (0 <? mass_east) = true /\
    mean_size_error m = 0.5.
Proof.
  eexists _, _, _. split; [vm_compute; reflexivity|].
  repeat split; vm_compute; reflexivity.
Qed.

(** C2 fails on the code. With the defaults, on the two unit squares with
    weights 1 and 3, the one error computed is 0.5, below the threshold
    1.0001, and the polygons returned are displaced all the same: the
    displacement ran in the iteration that computed the error. And with a
    threshold of 200 no iteration runs, the first included: nothing is
    printed and the copy of the input is returned. *)
Lemma displacement_follows_a_small_error :
  (stdout (cartogram 0 1 default_itermax default_max_size_error default_epsilon true
                     (world_of [west; east] [1; 3])).1 = [(1%nat, 0.5)] /\
   (0.5 <? default_max_size_error) = true /\
   exists p q rest,
     returned (cartogram 0 1 default_itermax default_max_size_error default_epsilon true
                         (world_of [west; east] [1; 3]))
       = Some (p :: rest) /\
     exterior p !! 0%nat = Some q /\
     point_eqb q (0, 0) = false) /\
  cartogram 0 1 default_itermax 200 default_epsilon true (world_of [west; east] [1; 3])
  = (mkWorld [GeoArray [west; east]; FloatArray [1; 3];
              GeoArray [west; east]; FloatArray [1; 3]] [],
     Ok 2%nat).
Proof.
  split; [split; [vm_compute; reflexivity|split; [vm_compute; reflexivity|]]
         |vm_compute; reflexivity].
  eexists _, _, _. split; [vm_compute; reflexivity|].
  split; [reflexivity|vm_compute; reflexivity].
Qed.

(** The theorem of C2 at the defaults, on the two unit squares with weights
    1 and 3. *)
Lemma cartogram_tests_the_previous_error_witness :
  exists ms output,
    (length ms <= default_itermax)%nat /\
    history [1; 3] (np_sum [1; 3]) default_epsilon (length ms) [west; east] = Ok (ms, output) /\
    heap (cartogram 0 1 default_itermax default_max_size_error default_epsilon true
                    (world_of [west; east] [1; 3])).1 !! 2%nat = Some (GeoArray output) /\
    stdout (cartogram 0 1 default_itermax default_max_size_error default_epsilon true
                      (world_of [west; east] [1; 3])).1
      = stdout (world_of [west; east] [1; 3])
        ++ zip (seq 1 (length ms)) (map mean_size_error ms) /\
    (forall j e, (j < length ms)%nat ->
       (of_Z 100 :: map mean_size_error ms) !! j = Some e ->
       (e <? default_max_size_error)%num = false) /\
    ((length ms < default_itermax)%nat ->
       exists e, (of_Z 100 :: map mean_size_error ms) !! length ms = Some e /\
                 (e <? default_max_size_error)%num = true).
Proof.
  apply (cartogram_tests_the_previous_error 0 1 default_itermax default_max_size_error
           default_epsilon [west; east] [1; 3] (world_of [west; east] [1; 3])).
  - reflexivity.
  - reflexivity.
  - vm_compute. reflexivity.
Defined.

(** C3 fails on the code. Weights -1 and -3 (each negative, their total
    negative) are accepted: the call returns two polygons. And three weights
    for two polygons are accepted when no iteration runs, here under a
    threshold of 200. *)
Lemma unchecked_weights_are_accepted :
  (exists output,
     returned (cartogram 0 1 default_itermax default_max_size_error default_epsilon false
                         (world_of [west; east] [-1; -3])) = Some output /\
     length output = 2%nat) /\
  returned (cartogram 0 1 default_itermax 200 default_epsilon false
                      (world_of [west; east] [1; 2; 3])) = Some [west; east].
Proof.
  split; [|vm_compute; reflexivity].
  eexists. split; [vm_compute; reflexivity|reflexivity].
Qed.

(** The theorem of C3 on the two unit squares with three weights: at the
    defaults, and under a threshold of 200. *)
Lemma count_mismatch_raises_in_the_first_iteration_witness :
  cartogram 0 1 default_itermax default_max_size_error default_epsilon true
            (world_of [west; east] [1; 2; 3])
  = (mkWorld [GeoArray [west; east]; FloatArray [1; 2; 3];
              GeoArray [west; east]; FloatArray [1; 2; 3]] [],
     Raise ValueError) /\
  cartogram 0 1 default_itermax 200 default_epsilon true (world_of [west; east] [1; 2; 3])
  = (mkWorld [GeoArray [west; east]; FloatArray [1; 2; 3];
              GeoArray [west; east]; FloatArray [1; 2; 3]] [],
     Ok 2%nat).
Proof.
  split.
  - apply (count_mismatch_raises_in_the_first_iteration 0 1 default_itermax
             default_max_size_error default_epsilon true [west; east] [1; 2; 3]
             (world_of [west; east] [1; 2; 3])).
    + reflexivity.
    + reflexivity.
    + discriminate.
    + unfold default_itermax. lia.
    + vm_compute. reflexivity.
  - apply (count_mismatch_raises_in_the_first_iteration 0 1 default_itermax
             200 default_epsilon true [west; east] [1; 2; 3]
             (world_of [west; east] [1; 2; 3])).
    + reflexivity.
    + reflexivity.
    + discriminate.
    + right. vm_compute. reflexivity.
Defined.

(** C4 fails on the code. The third vertex of the dart is its centroid.
    After one iteration on the dart and the far square, weights 4 and 1,
    that vertex is (NaN, NaN). *)
Lemma dart_vertex_becomes_nan :
  exterior dart !! 2%nat = Some (0, 0) /\
  point_eqb (0, 0) (centroid dart) = true /\
  exists p rest,
    returned (cartogram 0 1 1 default_max_size_error default_epsilon false
                        (world_of [dart; far] [4; 1])) = Some (p :: rest) /\
    exterior p !! 2%nat = Some (nan, nan).
Proof.
  split; [reflexivity|]. split; [vm_compute; reflexivity|].
  eexists _, _. split; [vm_compute; reflexivity|reflexivity].
Qed.

(** The theorem of C4 at the vertex (0,0) of the dart, in the field of the
    first round on the dart and the far square. *)
Lemma displaced_on_centroid_is_nan_witness : displaced dart_field (0, 0) = (nan, nan).
Proof.
  eapply (displaced_on_centroid_is_nan dart_field (0, 0) _ 0%nat).
  - vm_compute. reflexivity.
  - vm_compute. reflexivity.
  - vm_compute. reflexivity.
  - vm_compute. reflexivity.
Defined.

(** C5 fails on the code, in two ways. The dart has area 1 and the far
    square area 4; with weights 1 and 4 the weights are exactly
    proportional to the areas. One iteration runs (the line printed shows
    the error 0 it computed, which the first test did not read), and the
    polygon returned is not the input: the vertex on the centroid is
    (NaN, NaN). And the rectangles of areas 3 and 7 with the weights
    [1/3 * 3] and [1/3 * 7] have one quotient of weight by area, yet the
    desired area computed for the first is not 3 but the next value above
    it: its mass is not 0, the first coordinate of its ring is moved, and
    [Polygon] closes the ring again with a sixth coordinate. *)
Lemma proportional_weights_round_runs :
  (area dart = 1 /\ area far = 4 /\
   stdout (cartogram 0 1 default_itermax default_max_size_error default_epsilon true
                     (world_of [dart; far] [1; 4])).1 = [(1%nat, 0)] /\
   exists p rest,
     returned (cartogram 0 1 default_itermax default_max_size_error default_epsilon true
                         (world_of [dart; far] [1; 4])) = Some (p :: rest) /\
     exterior dart !! 2%nat = Some (0, 0) /\
     exterior p !! 2%nat = Some (nan, nan)) /\
  (area plank = 3 /\ area beam = 7 /\
   1 / 3 * 3 / 3 = 1 / 3 * 7 / 7 /\
   exists m mass_plank p q rest,
     force_field [plank; beam] [1 / 3 * 3; 1 / 3 * 7] (np_sum [1 / 3 * 3; 1 / 3 * 7])
                 default_epsilon = Ok m /\
     desired m !! 0%nat = Some 3.0000000000000004 /\
     mass m !! 0%nat = Some mass_plank /\
     (0 <? mass_plank) = true /\
     returned (cartogram 0 1 default_itermax default_max_size_error default_epsilon true
                         (world_of [plank; beam] [1 / 3 * 3; 1 / 3 * 7]))
       = Some (p :: rest) /\
     exterior plank !! 0%nat = Some (0, 0) /\
     exterior p !! 0%nat = Some q /\
     point_eqb q (0, 0) = false /\
     length (exterior p) = 6%nat).
Proof.
  split.
  - split; [vm_compute; reflexivity|]. split; [vm_compute; reflexivity|].
    split; [vm_compute; reflexivity|].
    eexists _, _. split; [vm_compute; reflexivity|]. split; reflexivity.
  - split; [vm_compute; reflexivity|]. split; [vm_compute; reflexivity|].
    split; [vm_compute; reflexivity|].
    eexists _, _, _, _, _. split; [vm_compute; reflexivity|].
    split; [vm_compute; reflexivity|]. split; [reflexivity|].
    split; [vm_compute; reflexivity|]. split; [vm_compute; reflexivity|].
    split; [reflexivity|]. split; [reflexivity|].
    split; [vm_compute; reflexivity|reflexivity].
Qed.

(** C6 fails on the code, in two ways. The dart alone, with weight 3: the
    desired area is the area and the mass is 0, and still the polygon
    returned is not the input: the vertex on the centroid is (NaN, NaN).
    And the rectangle of area 3 alone, with weight 0.1: the desired area
    computed, [3 * 0.1 / 0.1], is not 3 but the next value above it, the
    mass is not 0, the first coordinate of the ring is moved, and
    [Polygon] closes the ring again with a sixth coordinate. *)
Lemma single_dart_is_displaced :
  ((exists m, force_field [dart] [3] (np_sum [3]) default_epsilon = Ok m /\
              desired m = [1] /\ mass m = [0]) /\
   exists p,
     returned (cartogram 0 1 default_itermax default_max_size_error default_epsilon false
                         (world_of [dart] [3])) = Some [p] /\
     exterior dart !! 2%nat = Some (0, 0) /\
     exterior p !! 2%nat = Some (nan, nan)) /\
  (area plank = 3 /\
   exists m mass_plank p q,
     force_field [plank] [0.1] (np_sum [0.1]) default_epsilon = Ok m /\
     desired m = [3.0000000000000004] /\
     mass m = [mass_plank] /\
     (0 <? mass_plank) = true /\
     returned (cartogram 0 1 default_itermax default_max_size_error default_epsilon false
                         (world_of [plank] [0.1])) = Some [p] /\
     exterior plank !! 0%nat = Some (0, 0) /\
     exterior p !! 0%nat = Some q /\
     point_eqb q (0, 0) = false /\
     length (exterior p) = 6%nat).
Proof.
  split.
  - split.
    + eexists. split; [vm_compute; reflexivity|]. split; reflexivity.
    + eexists. split; [vm_compute; reflexivity|]. split; reflexivity.
  - split; [vm_compute; reflexivity|].
    eexists _, _, _, _. split; [vm_compute; reflexivity|].
    split; [vm_compute; reflexivity|]. split; [reflexivity|].
    split; [vm_compute; reflexivity|]. split; [vm_compute; reflexivity|].
    split; [reflexivity|]. split; [reflexivity|].
    split; [vm_compute; reflexivity|reflexivity].
Qed.


(** The theorem of C8 at the defaults, on the square with a hole and the
    west square, weights 1 and 3. *)
Lemma cartogram_keeps_count_and_order_witness :
  exists output ms,
    heap (cartogram 0 1 default_itermax default_max_size_error default_epsilon false
                    (world_of [frame; west] [1; 3])).1 !! 2%nat = Some (GeoArray output) /\
    length output = length [frame; west] /\
    (length ms <= default_itermax)%nat /\
    history [1; 3] (np_sum [1; 3]) default_epsilon (length ms) [frame; west] = Ok (ms, output) /\
    forall i p, [frame; west] !! i = Some p ->
      exists p', output !! i = Some p' /\ displaced_by ms p = Ok p'.
Proof.
  apply (cartogram_keeps_count_and_order 0 1 default_itermax default_max_size_error
           default_epsilon false [frame; west] [1; 3] (world_of [frame; west] [1; 3])).
  - reflexivity.
  - reflexivity.
  - vm_compute. reflexivity.
Defined.

(** The theorem of C9 on the same input: the hole of the first polygon
    comes back as it was. *)
Lemma cartogram_keeps_holes_witness :
  exists output,
    heap (cartogram 0 1 default_itermax default_max_size_error default_epsilon false
                    (world_of [frame; west] [1; 3])).1 !! 2%nat = Some (GeoArray output) /\
    forall i p, [frame; west] !! i = Some p ->
      exists p', output !! i = Some p' /\ interiors p' = interiors p.
Proof.
  apply (cartogram_keeps_holes 0 1 default_itermax default_max_size_error
           default_epsilon false [frame; west] [1; 3] (world_of [frame; west] [1; 3])).
  - reflexivity.
  - reflexivity.
  - vm_compute. reflexivity.
Defined.

End MachineRuns.

(** * Further properties of the code

    What follows is read off the code of [cartogram] itself: its edges (no
    iteration, an empty series, weights that are all zero, a NaN among the
    coordinates), what it keeps (the length of a ring from below, the output
    whatever [verbose]) and what it raises. *)

(** ** The loop and its edges *)

Section Edges.
Context {num : Type} `{Arith num} `{Geometry num}.

(** One iteration of the loop, unfolded. *)
Lemma rounds_step vs total_value max_size_error epsilon remaining iteration previous_error
    (ps : list (Polygon num)) :
  rounds vs total_value max_size_error epsilon (S remaining) iteration previous_error ps
  = if (previous_error <? max_size_error)%num then ([], ps, Ok tt)
    else match force_field ps vs total_value epsilon with
         | Raise e => ([], ps, Raise e)
         | Ok m =>
             match update_each (displace_polygon m) ps with
             | (ps', Raise e) => ([(S iteration, mean_size_error m)], ps', Raise e)
             | (ps', Ok _) =>
                 let '(lines, out, r) :=
                   rounds vs total_value max_size_error epsilon remaining (S iteration)
                          (mean_size_error m) ps' in
                 ((S iteration, mean_size_error m) :: lines, out, r)
             end
         end.
Proof. done. Qed.

(** X1. With [itermax = 0], or with a [max_size_error] above the initial
    error 100 of line 34, no iteration runs (lines 36-38): the call returns
    a new series holding the input polygons as they are, prints nothing and
    raises nothing, whatever the weights and however many there are. *)
Theorem cartogram_without_iteration
    arg_polygons arg_values itermax max_size_error epsilon verbose ps vs (w : world num) :
  heap w !! arg_polygons = Some (GeoArray ps) ->
  heap w !! arg_values = Some (FloatArray vs) ->
  itermax = 0 \/ (of_Z 100 <? max_size_error)%num = true ->
  cartogram arg_polygons arg_values itermax max_size_error epsilon verbose w
  = (mkWorld (heap w ++ [GeoArray ps; FloatArray vs]) (stdout w), Ok (length (heap w))).
Proof.
  intros Hp Hv Hno. rewrite (cartogram_rounds _ _ _ _ _ _ ps vs w Hp Hv).
  assert (rounds vs (np_sum vs) max_size_error epsilon itermax 0 (of_Z 100) ps
          = ([], ps, Ok tt)) as ->.
  { destruct itermax as [|n]; [done|]. destruct Hno as [|Htest]; [done|].
    by rewrite rounds_step, Htest. }
  destruct verbose; simpl; by rewrite app_nil_r.
Qed.

(** X2. [verbose] changes what is printed and nothing else (lines 55-56):
    a call with [verbose=False] prints nothing, and it leaves the same
    objects and has the same outcome (the series returned or the exception
    raised) as the call with [verbose=True]. *)
Theorem verbose_only_prints
    arg_polygons arg_values itermax max_size_error epsilon ps vs (w : world num) :
  heap w !! arg_polygons = Some (GeoArray ps) ->
  heap w !! arg_values = Some (FloatArray vs) ->
  let quiet := cartogram arg_polygons arg_values itermax max_size_error epsilon false w in
  let loud := cartogram arg_polygons arg_values itermax max_size_error epsilon true w in
  stdout quiet.1 = stdout w /\
  heap quiet.1 = heap loud.1 /\
  quiet.2 = loud.2.
Proof.
  intros Hp Hv. cbv zeta.
  rewrite !(cartogram_rounds _ _ _ _ _ _ ps vs w Hp Hv).
  destruct (rounds vs (np_sum vs) max_size_error epsilon itermax 0 (of_Z 100) ps)
    as [[lines out] r]. simpl. by rewrite app_nil_r.
Qed.

(** *** The length of a ring *)

Lemma displace_row_length (m : metrics num) coordinates u coordinates' :
  displace_row m coordinates u = Ok coordinates' -> length coordinates' = length coordinates.
Proof.
  unfold displace_row. destruct (np_where _) as [|i0 rest]; [done|].
  destruct (coordinates !! i0); [|done]. intros [= <-]. apply length_insert.
Qed.

Lemma displace_rows_length (m : metrics num) idx : forall coordinates coordinates',
  for_fold (displace_row m) idx coordinates = Ok coordinates' ->
  length coordinates' = length coordinates.
Proof.
  induction idx as [|u idx IH]; intros coordinates coordinates'; simpl; [by intros [= <-]|].
  destruct (displace_row m coordinates u) as [c1|] eqn:Hrow; simpl; [|done].
  intros Hrest. rewrite (IH _ _ Hrest). by apply (displace_row_length m coordinates u).
Qed.

Lemma close_ring_length (coords : list (point num)) :
  length coords <= length (close_ring coords) <= S (length coords).
Proof.
  unfold close_ring. destruct coords as [|first rest]; [simpl; lia|].
  destruct (last (first :: rest)); [|lia].
  destruct (point_eqb first p); [lia|]. rewrite length_app. simpl. lia.
Qed.

Lemma displace_polygon_length (m : metrics num) p p' :
  displace_polygon m p = Ok p' ->
  length (exterior p) <= length (exterior p') <= S (length (exterior p)).
Proof.
  unfold displace_polygon.
  destruct (for_fold _ _ _) as [coordinates'|] eqn:Hrows; simpl; [|done].
  intros ->%new_Polygon_Ok. simpl. rewrite <- (displace_rows_length _ _ _ _ Hrows).
  apply close_ring_length.
Qed.

Lemma displaced_by_length (ms : list (metrics num)) : forall p p',
  displaced_by ms p = Ok p' ->
  length (exterior p) <= length (exterior p') <= length (exterior p) + length ms.
Proof.
  unfold displaced_by. induction ms as [|m ms IH]; intros p p'; simpl.
  - intros [= <-]. lia.
  - destruct (displace_polygon m p) as [q|] eqn:Hq; simpl; [|done].
    intros Hrest. apply IH in Hrest. apply displace_polygon_length in Hq. lia.
Qed.

(** X3. The loop never drops a coordinate (lines 63-87): in a series
    returned, the exterior ring of each polygon has at least as many
    coordinates as the ring of the input polygon at its position, and at
    most [itermax] more (a ring whose ends an iteration has moved apart is
    closed again by [Polygon], with one more coordinate). *)
Theorem cartogram_never_shortens_a_ring
    arg_polygons arg_values itermax max_size_error epsilon verbose ps vs (w w' : world num) out :
  heap w !! arg_polygons = Some (GeoArray ps) ->
  heap w !! arg_values = Some (FloatArray vs) ->
  cartogram arg_polygons arg_values itermax max_size_error epsilon verbose w = (w', Ok out) ->
  exists output,
    heap w' !! out = Some (GeoArray output) /\
    forall i p, ps !! i = Some p ->
      exists p', output !! i = Some p' /\
        length (exterior p) <= length (exterior p') <= length (exterior p) + itermax.
Proof.
  intros Hp Hv Hrun. rewrite (cartogram_rounds _ _ _ _ _ _ ps vs w Hp Hv) in Hrun.
  destruct (rounds vs (np_sum vs) max_size_error epsilon itermax 0 (of_Z 100) ps)
    as [[lines output] [[]|e]] eqn:Hrounds; [|done].
  inversion Hrun; subst; clear Hrun.
  destruct (rounds_history _ _ _ _ _ _ _ _ _ _ Hrounds) as (ms & Hle & Hh & _).
  destruct (history_pointwise _ _ _ _ _ _ _ Hh) as (_ & _ & Hpt).
  exists output. simpl. split; [by apply list_lookup_middle|].
  intros i p Hi. destruct (Hpt i p Hi) as (p' & Hp' & Hd).
  exists p'. split; [done|]. apply displaced_by_length in Hd. lia.
Qed.

(** *** The row that line 84 writes *)

(** [np.where(mask)[0]] is empty exactly on a mask that holds nowhere. *)
Lemma np_where_from_nil mask : forall k,
  np_where_from k mask = [] <-> Forall (fun b => b = false) mask.
Proof.
  induction mask as [|b mask IH]; intros k; simpl; [done|].
  destruct b; simpl.
  - split; [done|]. by inversion 1.
  - rewrite IH. split; [by constructor|by inversion 1].
Qed.

(** Its first entry is the first position where the mask holds. *)
Lemma np_where_from_head mask : forall k i rest,
  np_where_from k mask = i :: rest ->
  exists i0, i = (k + i0)%nat /\ mask !! i0 = Some true /\
             forall j, j < i0 -> mask !! j = Some false.
Proof.
  induction mask as [|b mask IH]; intros k i rest; simpl; [done|].
  destruct b; simpl.
  - intros [= <- _]. exists 0%nat. split; [lia|]. split; [done|]. intros j Hj. lia.
  - intros (i0 & -> & Hi0 & Hbefore)%IH. exists (S i0). split; [lia|]. split; [done|].
    intros [|j] Hj; [done|]. apply Hbefore. lia.
Qed.

(** What a pass that raises nothing did. *)
Lemma displace_row_Ok (m : metrics num) coordinates u coordinates' :
  displace_row m coordinates u = Ok coordinates' ->
  exists i0 v,
    coordinates !! i0 = Some v /\ point_eqb v u = true /\
    (forall j w, j < i0 -> coordinates !! j = Some w -> point_eqb w u = false) /\
    coordinates' = <[i0 := displaced m v]> coordinates.
Proof.
  unfold displace_row, np_where.
  destruct (np_where_from 0 (map (fun p => point_eqb p u) coordinates)) as [|i rest] eqn:Hw;
    [done|].
  apply np_where_from_head in Hw as (i0 & -> & Hi0 & Hbefore). simpl.
  apply map_lookup_Some in Hi0 as (v & Hv & Heq). rewrite Hv. intros [= <-].
  exists i0, v. repeat split; try done.
  intros j w Hj Hw. specialize (Hbefore j Hj).
  rewrite (map_lookup _ _ _ _ Hw) in Hbefore. by inversion Hbefore.
Qed.

(** X4. One pass of the loop over the unique rows (lines 68-84) either
    finds the row [u] in the matrix and then writes exactly one position,
    the first whose row equals [u] (by [==] on both columns), replacing
    that row by its displaced value and leaving every other position as it
    was; or it finds no row equal to [u] and raises [IndexError]. *)
Theorem displace_row_moves_the_first_holder (m : metrics num) coordinates u :
  match displace_row m coordinates u with
  | Ok coordinates' =>
      exists i0 v,
        coordinates !! i0 = Some v /\ point_eqb v u = true /\
        (forall j w, j < i0 -> coordinates !! j = Some w -> point_eqb w u = false) /\
        coordinates' = <[i0 := displaced m v]> coordinates
  | Raise e =>
      e = IndexError /\ Forall (fun w => point_eqb w u = false) coordinates
  end.
Proof.
  unfold displace_row, np_where.
  destruct (np_where_from 0 (map (fun p => point_eqb p u) coordinates)) as [|i rest] eqn:Hw.
  - split; [done|]. apply np_where_from_nil in Hw.
    apply Forall_lookup. intros j w Hj.
    exact (proj1 (Forall_lookup _ _) Hw j _ (map_lookup _ _ _ _ Hj)).
  - apply np_where_from_head in Hw as (i0 & -> & Hi0 & Hbefore). simpl.
    apply map_lookup_Some in Hi0 as (v & Hv & Heq). rewrite Hv.
    exists i0, v. repeat split; try done.
    intros j w Hj Hw. specialize (Hbefore j Hj).
    rewrite (map_lookup _ _ _ _ Hw) in Hbefore. by inversion Hbefore.
Qed.

End Edges.

(** ** Rows that equal nothing *)

Section Unmatched.
Context {num : Type} `{Arith num} `{Geometry num}.

Lemma insert_row_keeps (x p : point num) rows :
  x = p \/ x ∈ rows -> x ∈ insert_row p rows.
Proof.
  induction rows as [|q rows IH]; simpl.
  - intros [->|Hx]; [left|by apply elem_of_nil in Hx].
  - destruct (point_ltb q p).
    + intros [->|[->|Hx]%elem_of_cons]; [right; apply IH; by left|left|right; apply IH; by right].
    + intros [->|Hx]; [left|by right].
Qed.

Lemma sort_rows_keeps (x : point num) rows : x ∈ rows -> x ∈ sort_rows rows.
Proof.
  induction rows as [|p rows IH]; simpl; [done|].
  intros [->|Hx]%elem_of_cons; apply insert_row_keeps; [by left|right; by apply IH].
Qed.

Lemma skip_repeats_keeps (u : point num) rows : forall p,
  unmatched u -> u ∈ rows -> u ∈ skip_repeats p rows.
Proof.
  intros p Hu. revert p. induction rows as [|q rows IH]; intros p; simpl; [done|].
  intros [<-|Hx]%elem_of_cons.
  - rewrite (proj2 (Hu p)). left.
  - destruct (point_eqb q p); [by apply IH|right; by apply IH].
Qed.

(** [np.unique] keeps a row that equals no other. *)
Lemma np_unique_keeps (u : point num) rows :
  unmatched u -> u ∈ rows -> u ∈ np_unique rows.
Proof.
  intros Hu Hin. apply sort_rows_keeps in Hin. unfold np_unique.
  destruct (sort_rows rows) as [|p rows']; [done|].
  apply elem_of_cons in Hin as [->|Hin]; [left|right; by apply skip_repeats_keeps].
Qed.

(** Every row that equals itself has a row equal to it among the unique
    rows. *)
Lemma skip_repeats_represents (c : point num) rows : forall p,
  point_eqb c c = true -> c ∈ p :: rows ->
  exists u, u ∈ p :: skip_repeats p rows /\ point_eqb c u = true.
Proof.
  intros p Hc. revert p. induction rows as [|q rows IH]; intros p Hin.
  - apply list_elem_of_singleton in Hin as ->. exists p. split; [left|done].
  - simpl. apply elem_of_cons in Hin as [->|[->|Hin]%elem_of_cons].
    + exists p. split; [left|done].
    + destruct (point_eqb q p) eqn:Hqp.
      * exists p. split; [left|done].
      * exists q. split; [right; left|done].
    + destruct (point_eqb q p).
      * apply IH. by right.
      * destruct (IH q) as (u & Hu & Hcu); [by right|]. exists u. split; [by right|done].
Qed.

Lemma np_unique_represents (c : point num) rows :
  point_eqb c c = true -> c ∈ rows ->
  exists u, u ∈ np_unique rows /\ point_eqb c u = true.
Proof.
  intros Hc Hin%sort_rows_keeps. unfold np_unique.
  destruct (sort_rows rows) as [|p rows']; [by apply elem_of_nil in Hin|].
  by apply skip_repeats_represents.
Qed.

Lemma close_ring_keeps (x : point num) coords : x ∈ coords -> x ∈ close_ring coords.
Proof.
  unfold close_ring. destruct coords as [|first rest]; [done|].
  destruct (last (first :: rest)); [|done].
  destruct (point_eqb first p); [done|]. intros Hx. apply elem_of_app. by left.
Qed.

(** The lookup of a row that equals nothing finds nothing. *)
Lemma displace_row_unmatched (m : metrics num) coordinates u :
  unmatched u -> displace_row m coordinates u = Raise IndexError.
Proof.
  intros Hu. unfold displace_row, np_where.
  assert (np_where_from 0 (map (fun p => point_eqb p u) coordinates) = []) as ->; [|done].
  generalize 0%nat. induction coordinates as [|c coordinates IH]; intros k; simpl; [done|].
  by rewrite (proj1 (Hu c)), IH.
Qed.

Lemma displace_rows_unmatched (m : metrics num) u idx : forall coordinates,
  unmatched u -> u ∈ idx -> for_fold (displace_row m) idx coordinates = Raise IndexError.
Proof.
  intros coordinates Hu. revert coordinates.
  induction idx as [|u0 idx IH]; intros coordinates Hin; simpl; [by apply elem_of_nil in Hin|].
  destruct (displace_row m coordinates u0) as [c1|e] eqn:Hrow; simpl.
  - apply elem_of_cons in Hin as [<-|Hin]; [|by apply IH].
    by rewrite displace_row_unmatched in Hrow.
  - by rewrite (displace_row_raises m coordinates u0 e Hrow).
Qed.

Lemma displace_polygon_unmatched (m : metrics num) p u :
  unmatched u -> u ∈ exterior p -> displace_polygon m p = Raise IndexError.
Proof.
  intros Hu Hin. unfold displace_polygon.
  rewrite (displace_rows_unmatched m u); [done|done|by apply np_unique_keeps].
Qed.

End Unmatched.

(** ** Rows that are pairwise apart *)

Section Separated.
Context {num : Type} `{Arith num}.

Lemma displace_row_finds (m : metrics num) coordinates u c :
  c ∈ coordinates -> point_eqb c u = true ->
  exists i0 v, coordinates !! i0 = Some v /\ point_eqb v u = true /\
               displace_row m coordinates u = Ok (<[i0 := displaced m v]> coordinates).
Proof.
  intros [i Hi]%list_elem_of_lookup Hc. unfold displace_row, np_where.
  destruct (np_where_from_first (map (fun p => point_eqb p u) coordinates) 0 i)
    as (i0 & rest & -> & Hi0).
  { by rewrite (map_lookup _ _ _ _ Hi), Hc. }
  apply map_lookup_Some in Hi0 as (v & Hv & Heq). simpl. rewrite Hv. by exists i0, v.
Qed.

(** Unique rows that are pairwise apart and each in the matrix are all
    found: a row still to come is held by a position that no earlier pass
    has written, since the position a pass writes held a row equal to the
    row of that pass. *)
Lemma displace_rows_apart (m : metrics num) idx : forall coordinates,
  StronglySorted apart idx ->
  Forall (fun u => exists c, c ∈ coordinates /\ point_eqb c u = true) idx ->
  exists coordinates', for_fold (displace_row m) idx coordinates = Ok coordinates'.
Proof.
  induction idx as [|u idx IH]; intros coordinates Hsorted Hfound; simpl; [by eexists|].
  apply StronglySorted_inv in Hsorted as [Hsorted Hapart].
  apply Forall_cons in Hfound as [(c & Hc & Hcu) Hfound].
  destruct (displace_row_finds m coordinates u c Hc Hcu) as (i0 & v & Hv & Hvu & ->). simpl.
  apply IH; [done|].
  apply Forall_lookup. intros k u' Hk.
  destruct (proj1 (Forall_lookup _ _) Hfound k u' Hk) as (c' & [i Hi]%list_elem_of_lookup & Hcu').
  exists c'. split; [|done]. apply list_elem_of_lookup. exists i.
  rewrite list_lookup_insert_ne; [done|]. intros <-.
  rewrite Hv in Hi. inversion Hi; subst.
  pose proof (proj1 (Forall_lookup _ _) Hapart k u' Hk c' Hvu). congruence.
Qed.

(** In a field that sends every coordinate to one row that equals no row,
    that row is the first of the matrix after the loop over the unique
    rows, one of which the first row equalled: the first row is the first
    to hold its value, and once written it is found by no later pass. *)
Lemma displace_rows_first (m : metrics num) bad idx : forall coordinates coordinates' c0,
  (forall v, displaced m v = bad) ->
  (forall c, point_eqb bad c = false) ->
  coordinates !! 0 = Some c0 ->
  c0 = bad \/ (exists u, u ∈ idx /\ point_eqb c0 u = true) ->
  for_fold (displace_row m) idx coordinates = Ok coordinates' ->
  coordinates' !! 0 = Some bad.
Proof.
  induction idx as [|u idx IH]; intros coordinates coordinates' c0 Hall Hbad Hc0 Hcase; simpl.
  - intros [= <-]. destruct Hcase as [->|(u & Hu & _)]; [done|by apply elem_of_nil in Hu].
  - destruct (displace_row m coordinates u) as [coordinates1|] eqn:Hrow; simpl; [|done].
    apply displace_row_Ok in Hrow as (i0 & v & Hv & Hvu & Hfirst & ->). rewrite Hall.
    destruct i0 as [|i0].
    + apply (IH _ _ bad Hall Hbad).
      * apply list_lookup_insert_eq. by eapply lookup_lt_Some.
      * by left.
    + apply (IH _ _ c0 Hall Hbad).
      * by rewrite list_lookup_insert_ne.
      * destruct Hcase as [->|(u' & Hu' & Hcu')]; [by left|].
        right. exists u'. split; [|done].
        apply elem_of_cons in Hu' as [->|Hu']; [|done].
        rewrite (Hfirst 0 c0) in Hcu'; [done|lia|done].
Qed.

End Separated.

(** ** Binary64: NaN and the lookup of line 70 *)

Section Places.
Local Open Scope Z_scope.

Lemma digits2_pos_bound m : Zpos m < 2 ^ Zpos (digits2_pos m).
Proof.
  induction m as [m IH|m IH|]; simpl digits2_pos; rewrite ?Pos2Z.inj_succ, ?Z.pow_succ_r by lia;
    [rewrite Pos2Z.inj_xI|rewrite Pos2Z.inj_xO|]; lia.
Qed.

(** The mantissa and the exponent of a valid finite binary64 value. *)
Lemma valid_finite s m e :
  valid_binary (S754_finite s m e) = true ->
  Zpos m < 9007199254740992 /\ -1074 <= e <= 971.
Proof.
  simpl. unfold bounded, canonical_mantissa.
  intros [Hc He]%andb_true_iff. apply Z.eqb_eq in Hc. apply Z.leb_le in He.
  unfold SpecFloat.fexp, SpecFloat.emin in Hc.
  change prec with 53 in *. change emax with 1024 in *.
  pose proof (digits2_pos_bound m) as Hm.
  assert (Zpos (digits2_pos m) <= 53) as Hd by lia.
  assert (2 ^ Zpos (digits2_pos m) <= 2 ^ 53) as Hp by (apply Z.pow_le_mono_r; lia).
  change (2 ^ 53) with 9007199254740992 in Hp. lia.
Qed.

(** The comparison of two values that are not NaN is that of their places. *)
Lemma SFcompare_place s1 s2 :
  valid_binary s1 = true -> valid_binary s2 = true ->
  s1 <> S754_nan -> s2 <> S754_nan ->
  SFcompare s1 s2 = Some (place_of s1 ?= place_of s2).
Proof.
  intros H1 H2 Hn1 Hn2.
  destruct s1 as [[]|[]| |s1 m1 e1]; try done;
    destruct s2 as [[]|[]| |s2 m2 e2]; try done;
    try apply valid_finite in H1 as [Hm1 He1];
    try apply valid_finite in H2 as [Hm2 He2];
    try (destruct s1); try (destruct s2);
    unfold place_of, SFcompare; f_equal; symmetry;
    try (apply Z.compare_lt_iff; lia);
    try (apply Z.compare_gt_iff; lia).
  all: destruct (Z.compare_spec e1 e2) as [->|Hlt|Hgt];
    try (apply Z.compare_lt_iff; lia);
    try (apply Z.compare_gt_iff; lia).
  - rewrite Z.compare_opp, Z.add_compare_mono_l. simpl. by rewrite Pos.compare_antisym.
  - by rewrite Z.add_compare_mono_l.
Qed.

End Places.

Section MachineRows.
Local Open Scope float_scope.
Context {G : Geometry float}.

Local Abbreviation sound := (fun u : point float => nan_row u = false).
Local Abbreviation not_after := (fun p q : point float => ~ before q p).

Lemma SFcompare_same s : s <> S754_nan -> SFcompare s s = Some Eq.
Proof.
  destruct s as [[]|[]| |[] m e]; simpl; try done; intros _;
    by rewrite Z.compare_refl, ?Pos.compare_cont_refl.
Qed.

Lemma isnan_false (x : float) : isnan x = false <-> Prim2SF x <> S754_nan.
Proof.
  unfold isnan; simpl. rewrite negb_false_iff, FloatAxioms.eqb_spec. unfold SFeqb. split.
  - intros Hx Hs. by rewrite Hs in Hx.
  - intros Hs. by rewrite SFcompare_same.
Qed.

Lemma isnan_nan (x : float) : isnan x = true -> x = nan.
Proof.
  intros Hx. apply Prim2SF_nan. destruct (Prim2SF x) eqn:Hs; try done;
    assert (isnan x = false) as Hf by (apply isnan_false; by rewrite Hs); congruence.
Qed.

Lemma eqb_nan_r (x : float) : (x =? nan) = false.
Proof. rewrite FloatAxioms.eqb_spec. unfold SFeqb. by destruct (Prim2SF x). Qed.

Lemma eqb_nan_l (x : float) : (nan =? x) = false.
Proof. rewrite FloatAxioms.eqb_spec. done. Qed.

(** A row with a NaN equals no row, itself included. *)
Lemma nan_row_unmatched (u : point float) : nan_row u = true -> unmatched u.
Proof.
  unfold nan_row, unmatched, point_eqb. destruct u as [x y]; simpl.
  intros [->%isnan_nan| ->%isnan_nan]%orb_true_iff c;
    rewrite ?eqb_nan_r, ?eqb_nan_l, ?andb_false_r; done.
Qed.

Lemma sound_row_equals_itself (c : point float) : nan_row c = false -> point_eqb c c = true.
Proof.
  unfold nan_row, point_eqb, isnan. intros [H1 H2]%orb_false_iff.
  apply negb_false_iff in H1, H2. by rewrite H1, H2.
Qed.

(** [==] and [<] on values that are not NaN, read on their places. *)
Lemma eqb_place (x y : float) :
  (x =? y) = true <-> isnan x = false /\ isnan y = false /\ place x = place y.
Proof.
  rewrite !isnan_false, FloatAxioms.eqb_spec. unfold SFeqb, place. split.
  - intros Hc.
    assert (Prim2SF x <> S754_nan /\ Prim2SF y <> S754_nan) as [Hx Hy]
      by (by destruct (Prim2SF x), (Prim2SF y)).
    rewrite SFcompare_place in Hc by (done || apply Prim2SF_valid).
    repeat split; try done. apply Z.compare_eq.
    by destruct (place_of (Prim2SF x) ?= place_of (Prim2SF y))%Z.
  - intros (Hx & Hy & Heq). rewrite SFcompare_place by (done || apply Prim2SF_valid).
    by rewrite Heq, Z.compare_refl.
Qed.

Lemma ltb_place (x y : float) :
  isnan x = false -> isnan y = false -> (x <? y) = (place x <? place y)%Z.
Proof.
  rewrite !isnan_false, FloatAxioms.ltb_spec. unfold SFltb, place. intros Hx Hy.
  rewrite SFcompare_place by (done || apply Prim2SF_valid). unfold Z.ltb.
  by destruct (place_of (Prim2SF x) ?= place_of (Prim2SF y))%Z.
Qed.

Lemma point_eqb_place (p q : point float) :
  point_eqb p q = true <->
  nan_row p = false /\ nan_row q = false /\ place p.1 = place q.1 /\ place p.2 = place q.2.
Proof.
  unfold point_eqb, nan_row. rewrite andb_true_iff, !orb_false_iff.
  change (p.1 == q.1)%num with (p.1 =? q.1). change (p.2 == q.2)%num with (p.2 =? q.2).
  rewrite !eqb_place. tauto.
Qed.

Lemma point_ltb_before (p q : point float) :
  nan_row p = false -> nan_row q = false ->
  (point_ltb p q = true <-> before p q).
Proof.
  unfold nan_row, point_ltb, before. intros [Hp1 Hp2]%orb_false_iff [Hq1 Hq2]%orb_false_iff.
  change (p.1 <? q.1)%num with (p.1 <? q.1). change (p.2 <? q.2)%num with (p.2 <? q.2).
  change (p.1 == q.1)%num with (p.1 =? q.1).
  rewrite orb_true_iff, andb_true_iff, eqb_place, !ltb_place by done.
  rewrite !Z.ltb_lt. tauto.
Qed.

Lemma before_apart (u u' : point float) :
  nan_row u = false -> nan_row u' = false -> before u u' -> apart u u'.
Proof.
  intros Hu Hu' Hb c (Hc & _ & H1 & H2)%point_eqb_place.
  destruct (point_eqb c u') eqn:Hcu'; [|done].
  apply point_eqb_place in Hcu' as (_ & _ & H1' & H2'). unfold before in Hb. lia.
Qed.

(** [np.unique] on rows without NaN: the rows come out sorted, each before
    the next, so that no two of them are equal. *)
Lemma insert_row_sorted (p : point float) rows :
  sound p -> Forall sound rows ->
  StronglySorted not_after rows -> StronglySorted not_after (insert_row p rows).
Proof.
  intros Hp. induction rows as [|q rows IH]; intros Hrows Hsorted; simpl.
  - by repeat constructor.
  - apply Forall_cons in Hrows as [Hq Hrows].
    apply StronglySorted_inv in Hsorted as [Hsorted Hall].
    destruct (point_ltb q p) eqn:Hqp.
    + apply point_ltb_before in Hqp; [|done|done]. constructor; [by apply IH|].
      apply Forall_forall. intros x [->|Hx]%insert_row_elem.
      * unfold before in *. lia.
      * by apply (proj1 (Forall_forall _ _) Hall).
    + assert (~ before q p) as Hn.
      { intros Hb. apply point_ltb_before in Hb; [congruence|done|done]. }
      constructor; [by constructor|]. constructor; [done|].
      eapply Forall_impl; [exact Hall|]. intros x Hx. simpl in *. unfold before in *. lia.
Qed.

Lemma sort_rows_sorted (rows : list (point float)) :
  Forall sound rows -> StronglySorted not_after (sort_rows rows).
Proof.
  induction rows as [|p rows IH]; intros Hrows; simpl; [constructor|].
  apply Forall_cons in Hrows as [Hp Hrows]. apply insert_row_sorted; [done| |by apply IH].
  apply Forall_forall. intros x Hx%sort_rows_elem. by apply (proj1 (Forall_forall _ _) Hrows).
Qed.

Lemma skip_repeats_sorted (rows : list (point float)) : forall p,
  sound p -> Forall sound rows ->
  StronglySorted not_after rows -> Forall (not_after p) rows ->
  StronglySorted before (skip_repeats p rows) /\ Forall (before p) (skip_repeats p rows).
Proof.
  induction rows as [|q rows IH]; intros p Hp Hrows Hsorted Hall; simpl; [by repeat constructor|].
  apply Forall_cons in Hrows as [Hq Hrows].
  apply StronglySorted_inv in Hsorted as [Hsorted Hqall].
  apply Forall_cons in Hall as [Hpq Hall].
  destruct (point_eqb q p) eqn:Heq.
  - by apply IH.
  - destruct (IH q Hq Hrows Hsorted Hqall) as [Hs Hb].
    assert (before p q) as Hbefore.
    { destruct (decide (place p.1 = place q.1 /\ place p.2 = place q.2)) as [[H1 H2]|Hne].
      - assert (point_eqb q p = true) by (apply point_eqb_place; by rewrite H1, H2). congruence.
      - simpl in Hpq. unfold before in *. lia. }
    split; [by constructor|]. constructor; [done|].
    eapply Forall_impl; [exact Hb|]. intros x Hx. simpl in *. unfold before in *. lia.
Qed.

Lemma np_unique_sorted (rows : list (point float)) :
  Forall sound rows -> StronglySorted before (np_unique rows).
Proof.
  intros Hrows. pose proof (sort_rows_sorted rows Hrows) as Hsorted.
  assert (Forall sound (sort_rows rows)) as Hsound.
  { apply Forall_forall. intros x Hx%sort_rows_elem. by apply (proj1 (Forall_forall _ _) Hrows). }
  unfold np_unique. destruct (sort_rows rows) as [|p rows']; [constructor|].
  apply Forall_cons in Hsound as [Hp Hsound].
  apply StronglySorted_inv in Hsorted as [Hsorted Hall].
  destruct (skip_repeats_sorted rows' p Hp Hsound Hsorted Hall) as [Hs Hb]. by constructor.
Qed.

Lemma np_unique_apart (rows : list (point float)) :
  Forall sound rows -> StronglySorted apart (np_unique rows).
Proof.
  intros Hrows. pose proof (np_unique_sorted rows Hrows) as Hsorted.
  assert (Forall sound (np_unique rows)) as Hsound.
  { apply Forall_forall. intros x Hx%np_unique_elem. by apply (proj1 (Forall_forall _ _) Hrows). }
  induction Hsorted as [|u idx Hsorted IH Hall]; [constructor|].
  apply Forall_cons in Hsound as [Hu Hsound]. constructor; [by apply IH|].
  apply Forall_lookup. intros k u' Hk. apply before_apart; [done| |].
  - by apply (proj1 (Forall_lookup _ _) Hsound k u' Hk).
  - by apply (proj1 (Forall_lookup _ _) Hall k u' Hk).
Qed.

(** On a ring without NaN every lookup of line 70 finds its row. *)
Lemma displace_rows_sound (m : metrics float) rows :
  Forall sound rows ->
  exists coordinates', for_fold (displace_row m) (np_unique rows) rows = Ok coordinates'.
Proof.
  intros Hrows. apply displace_rows_apart.
  - by apply np_unique_apart.
  - apply Forall_forall. intros u Hu%np_unique_elem. exists u. split; [done|].
    pose proof (proj1 (Forall_forall _ _) Hrows u Hu). by apply point_eqb_place.
Qed.

Lemma sound_or_nan (rows : list (point float)) :
  Forall sound rows \/ Exists (fun u => nan_row u = true) rows.
Proof.
  induction rows as [|u rows [IH|IH]].
  - left. constructor.
  - destruct (nan_row u) eqn:Hu; [right; by left|left; by constructor].
  - right. by right.
Qed.

(** X5. In binary64, for every force field, the displacement of a polygon
    (lines 63-87) raises [IndexError] exactly when a coordinate of its
    exterior ring is NaN: [np.unique] keeps the row with the NaN and line
    68 finds no row equal to it; and on a ring without NaN the unique rows
    are pairwise different and each is still in the matrix when its turn
    comes. *)
Theorem index_error_means_nan (m : metrics float) p :
  displace_polygon m p = Raise IndexError <->
  Exists (fun u => nan_row u = true) (exterior p).
Proof.
  split.
  - intros Hraise. destruct (sound_or_nan (exterior p)) as [Hs|He]; [|done].
    destruct (displace_rows_sound m (exterior p) Hs) as [coordinates' Hrows].
    unfold displace_polygon in Hraise. rewrite Hrows in Hraise. simpl in Hraise.
    by apply new_Polygon_raises in Hraise as [? _].
  - intros (u & Hu & Hnan)%Exists_exists.
    by apply (displace_polygon_unmatched m p u); [apply nan_row_unmatched|].
Qed.

(** *** Weights that are all zero *)

Lemma eqb_zero (v : float) : (v =? 0) = true -> zero_or_nan v.
Proof.
  rewrite FloatAxioms.eqb_spec. unfold zero_or_nan, SFeqb.
  change (Prim2SF 0) with (S754_zero false). by destruct (Prim2SF v) as [[]|[]| |[] ? ?].
Qed.

Lemma fold_add_zero_or_nan (xs : list float) : forall acc,
  Forall zero_or_nan xs -> zero_or_nan acc -> zero_or_nan (fold_left PrimFloat.add xs acc).
Proof.
  induction xs as [|x xs IH]; intros acc Hxs Hacc; simpl; [done|].
  inversion Hxs; subst. apply IH; [done|]. by apply add_of_zero_or_nan.
Qed.

Lemma mul_by_zero_or_nan x y : zero_or_nan y -> zero_or_nan (x * y).
Proof.
  unfold zero_or_nan. rewrite FloatAxioms.mul_spec.
  destruct (Prim2SF x), (Prim2SF y); done.
Qed.

Lemma zero_by_zero x y : zero_or_nan x -> zero_or_nan y -> x / y = nan.
Proof.
  unfold zero_or_nan. intros Hx Hy. apply Prim2SF_nan.
  rewrite FloatAxioms.div_spec. destruct (Prim2SF x), (Prim2SF y); done.
Qed.

Lemma mul_nan_l x : nan * x = nan.
Proof. apply Prim2SF_nan. rewrite FloatAxioms.mul_spec. done. Qed.

Lemma div_nan_l x : nan / x = nan.
Proof. apply Prim2SF_nan. rewrite FloatAxioms.div_spec. done. Qed.

Lemma sub_nan_l x : nan - x = nan.
Proof. apply Prim2SF_nan. rewrite FloatAxioms.sub_spec. done. Qed.

Lemma ltb_nan_l x : (nan <? x) = false.
Proof. rewrite FloatAxioms.ltb_spec. done. Qed.

(** The field of weights that are all zero: line 46 divides 0 by 0, the
    test of line 47 does not hold of the NaN that comes out, and the NaN
    goes on into the masses and the mean size error. *)
Lemma force_field_zero_weights (ps : list (Polygon float)) vs epsilon :
  length ps = length vs -> ps <> [] ->
  Forall (fun v => (v =? 0) = true) vs ->
  exists m,
    force_field ps vs (np_sum vs) epsilon = Ok m /\
    centroids m = map centroid ps /\
    length (radius m) = length ps /\
    length (mass m) = length ps /\
    Forall (fun d => d = nan) (desired m) /\
    Forall (fun x => x = nan) (mass m) /\
    mean_size_error m = nan.
Proof.
  intros Hlen Hne Hzero. unfold force_field. cbv zeta.
  set (A := np_sum (map area ps)).
  assert (zero_or_nan (np_sum vs)) as HT.
  { apply fold_add_zero_or_nan; [|done].
    eapply Forall_impl; [exact Hzero|]. apply eqb_zero. }
  assert (map (fun d : float => if (d == of_Z 0)%num then epsilon else d)
            (map (fun v : float => (A * v / np_sum vs)%num) vs)
          = map (fun _ => nan) vs) as ->.
  { rewrite map_map. apply map_ext_in. intros v Hv.
    pose proof (proj1 (List.Forall_forall _ _) Hzero v Hv) as Hv0. simpl in Hv0.
    simpl. rewrite (zero_by_zero (A * v) (np_sum vs)); [|by apply mul_by_zero_or_nan, eqb_zero|done].
    by rewrite eqb_nan_l. }
  unfold np_broadcast, np_stack_range. rewrite !length_map, <- Hlen, Nat.eqb_refl. cbn [rbind].
  eexists. split; [reflexivity|]. simpl. repeat split.
  - by rewrite !length_map.
  - by rewrite length_zip_with, !length_map, <- Hlen, Nat.min_id.
  - apply Forall_lookup. by intros i d (v & _ & ->)%map_lookup_Some.
  - apply Forall_lookup. intros i x (a & b & -> & Ha & _)%lookup_zip_with_Some.
    apply map_lookup_Some in Ha as (d & Hd & ->).
    apply map_lookup_Some in Hd as (v & _ & ->).
    rewrite div_nan_l. change (PrimFloat.sqrt nan) with nan. apply sub_nan_l.
  - unfold np_mean. rewrite (np_sum_nan _ 0); [apply div_nan_l|].
    destruct ps as [|p ps]; [done|]. destruct vs as [|v vs]; [done|]. simpl.
    f_equal. unfold np_maximum, np_minimum. simpl.
    change (negb (nan =? nan)) with true. rewrite !orb_true_r. apply sub_nan_l.
Qed.

(** A field whose masses are all NaN sends every coordinate to NaN. *)
Lemma displaced_nan_mass (m : metrics float) v :
  centroids m <> [] ->
  length (radius m) = length (centroids m) ->
  length (mass m) = length (centroids m) ->
  Forall (fun x => x = nan) (mass m) ->
  displaced m v = (nan, nan).
Proof.
  intros Hne Hr Hm Hnan. unfold displaced. cbv zeta.
  destruct (centroids m) as [|c cs]; [done|].
  destruct (radius m) as [|r rs]; [done|].
  destruct (mass m) as [|x xs]; [done|].
  inversion Hnan; subst. cbn [map zip_with fst snd].
  assert (scaled_force (force_reduction_factor m) nan r (distance_to v c) = nan) as ->.
  { unfold scaled_force, near_field, far_field; simpl.
    rewrite !mul_nan_l, div_nan_l. destruct (_ <=? _); apply mul_nan_l. }
  change (@mul float float64 nan) with (PrimFloat.mul nan). rewrite !mul_nan_l.
  rewrite !(np_sum_nan (nan :: _) 0) by done.
  change (@add float float64) with PrimFloat.add. by rewrite !add_nan_r.
Qed.

(** X7. In binary64, with as many weights as polygons, all of them zero,
    [epsilon] is of no use: [total_value] is 0, every desired area is 0/0,
    NaN, which the test [desired == 0] of line 47 does not replace, and the
    masses and the mean size error are NaN. Lines 73-84 then send every
    coordinate they are given to (NaN, NaN). So, when an iteration runs
    and the first polygon has coordinates, none of them NaN, the first
    coordinate of its ring is (NaN, NaN) when line 87 makes the polygon
    anew, [Polygon] refuses the ring, and the call raises [ValueError]. *)
Theorem zero_weights_turn_coordinates_into_nan
    arg_polygons arg_values itermax max_size_error epsilon verbose p ps vs (w : world float) :
  heap w !! arg_polygons = Some (GeoArray (p :: ps)) ->
  heap w !! arg_values = Some (FloatArray vs) ->
  length (p :: ps) = length vs ->
  Forall (fun v => (v =? 0) = true) vs ->
  exterior p <> [] ->
  Forall (fun c => nan_row c = false) (exterior p) ->
  (0 < itermax)%nat ->
  (of_Z 100 <? max_size_error)%num = false ->
  (exists m,
     force_field (p :: ps) vs (np_sum vs) epsilon = Ok m /\
     Forall (fun d => d = nan) (desired m) /\
     Forall (fun x => x = nan) (mass m) /\
     mean_size_error m = nan /\
     forall c, displaced m c = (nan, nan)) /\
  (cartogram arg_polygons arg_values itermax max_size_error epsilon verbose w).2
  = Raise ValueError.
Proof.
  intros Hp Hv Hlen Hzero Hring Hsound Hiter Htest.
  destruct (force_field_zero_weights (p :: ps) vs epsilon Hlen ltac:(done) Hzero)
    as (m & Hff & Hcs & Hrad & Hmass & Hdes & Hnan & Herr).
  assert (forall c, displaced m c = (nan, nan)) as Hall.
  { intros c. apply displaced_nan_mass; rewrite ?Hcs, ?length_map; done. }
  split; [by exists m|].
  rewrite (cartogram_rounds _ _ _ _ _ _ (p :: ps) vs w Hp Hv).
  destruct itermax as [|n]; [lia|]. rewrite rounds_step, Htest, Hff. cbn [update_each].
  assert (displace_polygon m p = Raise ValueError) as ->; [|done].
  unfold displace_polygon.
  destruct (displace_rows_sound m (exterior p) Hsound) as [coordinates' Hrows].
  rewrite Hrows. simpl.
  destruct (exterior p) as [|c0 rest] eqn:Hext; [done|].
  apply Forall_cons in Hsound as [Hc0 Hsound0].
  assert (coordinates' !! 0%nat = Some (nan, nan)) as Hfirst.
  { apply (displace_rows_first m (nan, nan) (np_unique (c0 :: rest)) (c0 :: rest) _ c0 Hall).
    - intros c. unfold point_eqb. simpl. by rewrite eqb_nan_l.
    - done.
    - right. apply np_unique_represents; [by apply sound_row_equals_itself|left].
    - done. }
  destruct coordinates' as [|first rest']; [done|]. by inversion Hfirst; subst.
Qed.

(** *** An empty series *)

Lemma rounds_of_nothing max_size_error epsilon remaining : forall iteration previous_error,
  (previous_error <? max_size_error) = false ->
  rounds [] (np_sum []) max_size_error epsilon remaining iteration previous_error []
  = (zip (seq (S iteration) remaining) (repeat nan remaining), [], Ok tt).
Proof.
  induction remaining as [|remaining IH]; intros iteration previous_error Htest; [done|].
  rewrite rounds_step.
  change (previous_error <? max_size_error)%num with (previous_error <? max_size_error).
  rewrite Htest.
  assert (exists m, force_field (@nil (Polygon float)) [] (np_sum []) epsilon = Ok m
                    /\ mean_size_error m = nan) as (m & -> & ->)
    by (eexists; split; reflexivity).
  cbn [update_each]. by rewrite (IH (S iteration) nan (ltb_nan_l _)).
Qed.

(** X8. In binary64, on an empty series of polygons with an empty series
    of weights, the mean of no size error is 0/0, NaN, which is below no
    threshold: unless the initial 100 is below [max_size_error], all
    [itermax] iterations run, each showing a mean size error of NaN when
    [verbose] is set, and the call returns an empty series. *)
Theorem empty_series_runs_every_iteration
    arg_polygons arg_values itermax max_size_error epsilon verbose (w : world float) :
  heap w !! arg_polygons = Some (GeoArray []) ->
  heap w !! arg_values = Some (FloatArray []) ->
  (of_Z 100 <? max_size_error)%num = false ->
  cartogram arg_polygons arg_values itermax max_size_error epsilon verbose w
  = (mkWorld (heap w ++ [GeoArray []; FloatArray []])
             (stdout w ++ shown verbose (zip (seq 1 itermax) (repeat nan itermax))),
     Ok (length (heap w))).
Proof.
  intros Hp Hv Htest. rewrite (cartogram_rounds _ _ _ _ _ _ [] [] w Hp Hv).
  by rewrite (rounds_of_nothing max_size_error epsilon itermax 0 (of_Z 100) Htest).
Qed.

End MachineRows.

(** ** The fields of the force field *)

Section Fields.
Context {num : Type} `{Arith num} `{Geometry num}.
Local Open Scope num_scope.

Lemma zip_with_map {A B A' B' C} (f : A' -> B' -> C) (g : A -> A') (h : B -> B') xs ys :
  zip_with f (map g xs) (map h ys) = zip_with (fun x y => f (g x) (h y)) xs ys.
Proof. revert ys. induction xs as [|x xs IH]; intros [|y ys]; simpl; congruence. Qed.

(** The field of an iteration, when there are as many weights as polygons. *)
Lemma force_field_fields (ps : list (Polygon num)) vs total_value epsilon :
  length ps = length vs ->
  exists m,
    force_field ps vs total_value epsilon = Ok m /\
    centroids m = map centroid ps /\
    total_area m = np_sum (map area ps) /\
    desired m = map (fun v => let d := np_sum (map area ps) * v / total_value in
                              if d == of_Z 0 then epsilon else d) vs /\
    radius m = map (fun p => sqrt (area p / pi)) ps /\
    mass m = zip_with (fun d a => sqrt (d / pi) - sqrt (a / pi)) (desired m) (map area ps) /\
    mean_size_error m
      = np_mean (zip_with (fun d a => np_maximum d a - np_minimum d a) (desired m) (map area ps)) /\
    force_reduction_factor m = of_Z 1 / (of_Z 1 + mean_size_error m).
Proof.
  intros Hlen. unfold force_field, np_broadcast, np_stack_range. cbv zeta.
  rewrite !length_map, <- Hlen, Nat.eqb_refl. cbn [rbind].
  eexists. split; [reflexivity|]. simpl.
  repeat split; rewrite ?map_map, ?zip_with_map; done.
Qed.

End Fields.

(** ** The further properties on inputs *)

Section EdgeRuns.
Import Inputs.
Local Open Scope float_scope.

(** X1 with [itermax = 0], on the two unit squares with three weights. *)
Lemma cartogram_without_iteration_witness :
  cartogram 0 1 0 default_max_size_error default_epsilon true (world_of [west; east] [1; 2; 3])
  = (mkWorld (heap (world_of [west; east] [1; 2; 3])
              ++ [GeoArray [west; east]; FloatArray [1; 2; 3]])
             (stdout (world_of [west; east] [1; 2; 3])),
     Ok (length (heap (world_of [west; east] [1; 2; 3])))).
Proof.
  apply (cartogram_without_iteration 0 1 0 default_max_size_error default_epsilon true
           [west; east] [1; 2; 3] (world_of [west; east] [1; 2; 3])).
  - reflexivity.
  - reflexivity.
  - left. reflexivity.
Defined.

(** X2 at the defaults, on the two unit squares with weights 1 and 3. *)
Lemma verbose_only_prints_witness :
  stdout (cartogram 0 1 default_itermax default_max_size_error default_epsilon false
                    (world_of [west; east] [1; 3])).1
  = stdout (world_of [west; east] [1; 3]) /\
  heap (cartogram 0 1 default_itermax default_max_size_error default_epsilon false
                  (world_of [west; east] [1; 3])).1
  = heap (cartogram 0 1 default_itermax default_max_size_error default_epsilon true
                    (world_of [west; east] [1; 3])).1 /\
  (cartogram 0 1 default_itermax default_max_size_error default_epsilon false
             (world_of [west; east] [1; 3])).2
  = (cartogram 0 1 default_itermax default_max_size_error default_epsilon true
               (world_of [west; east] [1; 3])).2.
Proof.
  apply (verbose_only_prints 0 1 default_itermax default_max_size_error default_epsilon
           [west; east] [1; 3] (world_of [west; east] [1; 3])).
  - reflexivity.
  - reflexivity.
Defined.

(** X3 at the defaults, on the two unit squares with weights 1 and 3. *)
Lemma cartogram_never_shortens_a_ring_witness :
  exists output,
    heap (cartogram 0 1 default_itermax default_max_size_error default_epsilon false
                    (world_of [west; east] [1; 3])).1 !! 2%nat = Some (GeoArray output) /\
    forall i p, [west; east] !! i = Some p ->
      exists p', output !! i = Some p' /\
        (length (exterior p) <= length (exterior p') <= length (exterior p) + default_itermax)%nat.
Proof.
  apply (cartogram_never_shortens_a_ring 0 1 default_itermax default_max_size_error
           default_epsilon false [west; east] [1; 3] (world_of [west; east] [1; 3])).
  - reflexivity.
  - reflexivity.
  - vm_compute. reflexivity.
Defined.

(** X7 on the two unit squares with weights 0 and 0, at the defaults. *)
Lemma zero_weights_turn_coordinates_into_nan_witness :
  (exists m,
     force_field [west; east] [0; 0] (np_sum [0; 0]) default_epsilon = Ok m /\
     Forall (fun d => d = nan) (desired m) /\
     Forall (fun x => x = nan) (mass m) /\
     mean_size_error m = nan /\
     forall c, displaced m c = (nan, nan)) /\
  (cartogram 0 1 default_itermax default_max_size_error default_epsilon false
             (world_of [west; east] [0; 0])).2
  = Raise ValueError.
Proof.
  apply (zero_weights_turn_coordinates_into_nan 0 1 default_itermax default_max_size_error
           default_epsilon false west [east] [0; 0] (world_of [west; east] [0; 0])).
  - reflexivity.
  - reflexivity.
  - reflexivity.
  - repeat constructor.
  - discriminate.
  - repeat constructor.
  - unfold default_itermax. lia.
  - vm_compute. reflexivity.
Defined.

(** X8 at the defaults. *)
Lemma empty_series_runs_every_iteration_witness :
  cartogram 0 1 default_itermax default_max_size_error default_epsilon true (world_of [] [])
  = (mkWorld (heap (world_of [] []) ++ [GeoArray []; FloatArray []])
             (stdout (world_of [] [])
              ++ shown true (zip (seq 1 default_itermax) (repeat nan default_itermax))),
     Ok (length (heap (world_of [] [])))).
Proof.
  apply (empty_series_runs_every_iteration 0 1 default_itermax default_max_size_error
           default_epsilon true (world_of [] [])).
  - reflexivity.
  - reflexivity.
  - vm_compute. reflexivity.
Defined.

End EdgeRuns.

(** * Balance and the boundary, in binary64

    The two statements of idempotence of the specification and its
    statement of continuity, as IEEE binary64 has them: where the
    specification reasons on real numbers, the program rounds every
    product and every quotient. *)

(** ** The boundary between the two formulas *)

Section Boundary.
Local Open Scope float_scope.









End Boundary.

(** ** A field whose masses are zero *)

Section ZeroMass.
Local Open Scope float_scope.

Lemma sub_same (x : float) : isfinite x = true -> x - x = 0.
Proof.
  unfold isfinite. intros Hx. apply Prim2SF_inj. rewrite FloatAxioms.sub_spec.
  destruct (Prim2SF x) as [[]|[]| |s m e]; try done.
  unfold SF64sub, SFsub. by rewrite Z.sub_diag.
Qed.

Lemma mul_of_zero_or_nan x y : zero_or_nan x -> zero_or_nan (x * y).
Proof.
  unfold zero_or_nan. rewrite FloatAxioms.mul_spec.
  destruct (Prim2SF x), (Prim2SF y); done.
Qed.

Lemma div_of_zero_or_nan x y : zero_or_nan x -> zero_or_nan (x / y).
Proof.
  unfold zero_or_nan. rewrite FloatAxioms.div_spec.
  destruct (Prim2SF x), (Prim2SF y); done.
Qed.

(** Lines 77-80 for a polygon of mass zero: whichever formula line 79
    takes, the force is a zero, or NaN. *)
Lemma scaled_force_zero_mass frf mj rj d :
  zero_or_nan mj -> zero_or_nan (scaled_force frf mj rj d).
Proof.
  intros Hm. unfold scaled_force, near_field, far_field; simpl.
  apply mul_of_zero_or_nan. destruct (d <=? rj)%float.
  - by apply mul_of_zero_or_nan, mul_of_zero_or_nan.
  - by apply div_of_zero_or_nan, mul_of_zero_or_nan.
Qed.

(** Zeros and NaN add up, from 0, to 0 or to NaN. *)
Lemma fold_add_zeros (xs : list float) : forall acc,
  Forall zero_or_nan xs -> acc = 0 \/ acc = nan ->
  fold_left PrimFloat.add xs acc = 0 \/ fold_left PrimFloat.add xs acc = nan.
Proof.
  induction xs as [|x xs IH]; intros acc Hxs Hacc; simpl; [done|].
  inversion Hxs as [|? ? Hx Hrest]; subst. apply IH; [done|].
  destruct Hacc as [-> | ->]; [|right; apply add_nan_l].
  unfold zero_or_nan in Hx.
  destruct (Prim2SF x) as [[]|[]| |s m e] eqn:Hs; try done.
  - left. apply Prim2SF_inj. by rewrite FloatAxioms.add_spec, Hs.
  - left. apply Prim2SF_inj. by rewrite FloatAxioms.add_spec, Hs.
  - right. apply Prim2SF_nan. by rewrite FloatAxioms.add_spec, Hs.
Qed.

Lemma np_sum_zeros (xs : list float) :
  Forall zero_or_nan xs -> np_sum xs = 0 \/ np_sum xs = nan.
Proof. intros Hxs. apply fold_add_zeros; [done|by left]. Qed.

(** Lines 73-84 in a field whose masses are zero: what line 84 adds to each
    column of the row is 0, or NaN. *)
Lemma displaced_zero_mass (m : metrics float) (v : point float) :
  Forall zero_or_nan (mass m) ->
  exists z1 z2, (z1 = 0 \/ z1 = nan) /\ (z2 = 0 \/ z2 = nan) /\
                displaced m v = (v.1 + z1, v.2 + z2).
Proof.
  intros Hmass. unfold displaced. cbv zeta.
  set (Fijs := zip_with (fun d mr => scaled_force _ _ _ d) _ _).
  assert (Forall zero_or_nan Fijs) as HF.
  { apply Forall_lookup. intros i F (d & mr & -> & _ & Hmr)%lookup_zip_with_Some.
    apply scaled_force_zero_mass.
    apply lookup_zip_with_Some in Hmr as (mj & rj & -> & Hmj & _). simpl.
    exact (proj1 (Forall_lookup _ _) Hmass i mj Hmj). }
  eexists _, _. split; [|split; [|reflexivity]].
  - apply np_sum_zeros. apply Forall_lookup.
    intros i t (F & dx & -> & HFi & _)%lookup_zip_with_Some.
    apply mul_of_zero_or_nan. exact (proj1 (Forall_lookup _ _) HF i F HFi).
  - apply np_sum_zeros. apply Forall_lookup.
    intros i t (F & dx & -> & HFi & _)%lookup_zip_with_Some.
    apply mul_of_zero_or_nan. exact (proj1 (Forall_lookup _ _) HF i F HFi).
Qed.

Lemma add_zero_twice (x : float) : x + 0 + 0 = x + 0.
Proof.
  apply Prim2SF_inj. rewrite !FloatAxioms.add_spec.
  change (Prim2SF 0) with (S754_zero false).
  by destruct (Prim2SF x) as [[]|[]| |s m e].
Qed.

Lemma add_zero (x : float) : negative_zero x = false -> x + 0 = x.
Proof.
  unfold negative_zero. intros Hx. apply Prim2SF_inj. rewrite FloatAxioms.add_spec.
  change (Prim2SF 0) with (S754_zero false).
  by destruct (Prim2SF x) as [[]|[]| |s m e].
Qed.

Lemma zero_add (x : float) : (0 <? x) = true -> 0 + x = x.
Proof.
  rewrite FloatAxioms.ltb_spec. unfold SFltb. change (Prim2SF 0) with (S754_zero false).
  intros Hx. apply Prim2SF_inj. rewrite FloatAxioms.add_spec.
  change (Prim2SF 0) with (S754_zero false).
  by destruct (Prim2SF x) as [[]|[]| |[] m e].
Qed.

Lemma kept_again (c v z : float) : kept c v -> z = 0 \/ z = nan -> kept c (v + z).
Proof.
  unfold kept. intros Hv [-> | ->]; [|right; right; apply add_nan_r].
  destruct Hv as [-> | [-> | ->]].
  - right. by left.
  - right. left. apply add_zero_twice.
  - right. right. apply add_nan_l.
Qed.

Lemma kept_row_again (m : metrics float) (c v : point float) :
  Forall zero_or_nan (mass m) -> kept_row c v -> kept_row c (displaced m v).
Proof.
  intros Hmass [H1 H2].
  destruct (displaced_zero_mass m v Hmass) as (z1 & z2 & Hz1 & Hz2 & ->).
  split; by apply kept_again.
Qed.

(** A coordinate kept, of one that was no negative zero, is the
    coordinate, or NaN. *)
Lemma kept_same (c c' : float) :
  negative_zero c = false -> kept c c' -> c' = c \/ c' = nan.
Proof.
  intros Hc [-> | [-> | ->]]; [by left| |by right]. left. by apply add_zero.
Qed.

Lemma kept_row_same_row (c c' : point float) :
  negative_zero c.1 = false -> negative_zero c.2 = false ->
  kept_row c c' -> nan_row c' = false -> c' = c.
Proof.
  intros H1 H2 [K1 K2] [N1 N2]%orb_false_iff.
  apply kept_same in K1; [|done]. apply kept_same in K2; [|done].
  destruct c as [x y], c' as [x' y']; simpl in *.
  destruct K1 as [-> | ->]; [|done]. destruct K2 as [-> | ->]; [|done]. done.
Qed.

Lemma kept_rows_same (original : list (point float)) : forall coordinates',
  Forall (fun c => negative_zero c.1 = false /\ negative_zero c.2 = false) original ->
  Forall2 kept_row original coordinates' ->
  Forall (fun c => nan_row c = false) coordinates' ->
  coordinates' = original.
Proof.
  intros coordinates' Hsigned Hkept. induction Hkept as [|c c' cs cs' Hcc' _ IH]; [done|].
  apply Forall_cons in Hsigned as [[S1 S2] Hsigned].
  intros [Hc' Hsound]%Forall_cons. f_equal; [|by apply IH].
  by apply kept_row_same_row.
Qed.

(** The loop over the unique rows in such a field keeps every row. *)
Lemma displace_rows_kept (m : metrics float) idx : forall original coordinates coordinates',
  Forall zero_or_nan (mass m) ->
  Forall2 kept_row original coordinates ->
  for_fold (displace_row m) idx coordinates = Ok coordinates' ->
  Forall2 kept_row original coordinates'.
Proof.
  induction idx as [|u idx IH]; intros original coordinates coordinates' Hmass Hkept; simpl.
  - by intros [= <-].
  - unfold displace_row at 1.
    destruct (np_where _) as [|i0 rest]; [done|].
    destruct (coordinates !! i0) as [v|] eqn:Hv; [|done]. simpl.
    apply IH; [done|].
    destruct (Forall2_lookup_r _ _ _ _ _ Hkept Hv) as (c & Hc & Hcv).
    rewrite <- (list_insert_id original i0 c Hc).
    apply Forall2_insert; [done|]. by apply kept_row_again.
Qed.

Lemma close_ring_lookup (coords : list (point float)) j c :
  coords !! j = Some c -> close_ring coords !! j = Some c.
Proof.
  intros Hj. unfold close_ring. destruct coords as [|first rest]; [done|].
  destruct (last (first :: rest)); [|done].
  destruct (point_eqb first p); [done|]. by apply lookup_app_l_Some.
Qed.

(** The body of the loop over the polygons in such a field: the ring that
    [Polygon] is given holds, row for row, the rows of the ring kept. *)
Lemma displace_polygon_kept (m : metrics float) p p' :
  Forall zero_or_nan (mass m) ->
  displace_polygon m p = Ok p' ->
  exists coordinates',
    exterior p' = close_ring coordinates' /\
    interiors p' = interiors p /\
    Forall2 kept_row (exterior p) coordinates'.
Proof.
  intros Hmass. unfold displace_polygon.
  destruct (for_fold _ _ _) as [coordinates'|] eqn:Hrows; simpl; [|done].
  intros ->%new_Polygon_Ok. exists coordinates'. repeat split.
  apply (displace_rows_kept m _ (exterior p) _ _ Hmass) in Hrows; [done|].
  apply Forall2_same_length_lookup_2; [done|].
  intros i x y Hx Hy. rewrite Hx in Hy. inversion Hy; subst. split; by left.
Qed.

End ZeroMass.

(** ** The count of the polygons as a binary64 value *)

Section Counts.
Local Open Scope Z_scope.

Lemma digits2_pos_least m : 2 ^ (Zpos (digits2_pos m) - 1) <= Zpos m.
Proof.
  induction m as [m IH|m IH|]; simpl digits2_pos; rewrite ?Pos2Z.inj_succ.
  - replace (Z.succ (Zpos (digits2_pos m)) - 1) with (Z.succ (Zpos (digits2_pos m) - 1)) by lia.
    rewrite Z.pow_succ_r, Pos2Z.inj_xI by lia. lia.
  - replace (Z.succ (Zpos (digits2_pos m)) - 1) with (Z.succ (Zpos (digits2_pos m) - 1)) by lia.
    rewrite Z.pow_succ_r, (Pos2Z.inj_xO m) by lia. lia.
  - simpl. lia.
Qed.

Lemma digits2_pos_iter m k :
  Zpos (digits2_pos (Pos.iter xO m k)) = Zpos (digits2_pos m) + Zpos k.
Proof.
  induction k as [|k IH] using Pos.peano_ind.
  - simpl. lia.
  - rewrite Pos.iter_succ. cbn [digits2_pos]. rewrite Pos2Z.inj_succ, IH. lia.
Qed.

(** A mantissa that needs no rounding is not rounded. *)
Lemma binary_round_aux_canonical s m e :
  SpecFloat.fexp prec emax (Zpos (digits2_pos m) + e) = e -> e <= emax - prec ->
  binary_round_aux prec emax s (Zpos m) e loc_Exact = S754_finite s m e.
Proof.
  intros Hc He. unfold binary_round_aux, shr_fexp. cbn [Zdigits2].
  rewrite Hc, Z.sub_diag.
  cbn [shr shr_record_of_loc loc_of_shr_record shr_m round_nearest_even Zdigits2].
  rewrite Hc, Z.sub_diag. cbn [shr shr_m]. apply Z.leb_le in He. by rewrite He.
Qed.

(** The conversion of line 52, of a count of fewer than [2^53] elements
    and at least one, is a positive value. *)
Lemma of_Z_count (n : nat) :
  (0 < n)%nat -> Z.of_nat n < 2 ^ 53 ->
  exists m e, Prim2SF (of_Z (Z.of_nat n)) = S754_finite false m e.
Proof.
  intros Hpos Hlt. simpl. rewrite FloatAxioms.of_uint63_spec.
  change Uint63Axioms.to_Z with Uint63.to_Z.
  rewrite Uint63.of_Z_spec, Z.mod_small
    by (split; [lia|]; apply Z.lt_trans with (2 ^ 53); [done|reflexivity]).
  destruct (Z.of_nat n) as [|p|p] eqn:Hn; [lia| |lia].
  unfold binary_normalize, binary_round, shl_align.
  pose proof (digits2_pos_least p) as Hleast.
  assert (Zpos (digits2_pos p) <= 53) as Hd.
  { destruct (Z.le_gt_cases (Zpos (digits2_pos p)) 53) as [|Hgt]; [done|].
    assert (2 ^ 53 <= 2 ^ (Zpos (digits2_pos p) - 1)) by (apply Z.pow_le_mono_r; lia). lia. }
  assert (SpecFloat.fexp prec emax (Zpos (digits2_pos p) + 0) = Zpos (digits2_pos p) - 53) as ->.
  { unfold SpecFloat.fexp, SpecFloat.emin. change prec with 53. change emax with 1024. lia. }
  destruct (Zpos (digits2_pos p) - 53 - 0) as [|k|k] eqn:Hk; [|lia|].
  - eexists _, _. apply binary_round_aux_canonical.
    + unfold SpecFloat.fexp, SpecFloat.emin. change prec with 53. change emax with 1024. lia.
    + change prec with 53. change emax with 1024. lia.
  - eexists _, _. apply binary_round_aux_canonical.
    + rewrite digits2_pos_iter.
      unfold SpecFloat.fexp, SpecFloat.emin. change prec with 53. change emax with 1024. lia.
    + change prec with 53. change emax with 1024. lia.
Qed.

End Counts.

(** ** Polygons in balance *)

Section Balanced.
Local Open Scope float_scope.
Context {G : Geometry float}.

Lemma positive_nonzero (a : float) : (0 <? a) = true -> (a =? 0) = false.
Proof.
  rewrite FloatAxioms.ltb_spec, FloatAxioms.eqb_spec. unfold SFltb, SFeqb.
  change (Prim2SF 0) with (S754_zero false).
  by destruct (Prim2SF a) as [[]|[]| |[] m e].
Qed.

(** An area above 0 of which the radius is finite is finite. *)
Lemma radius_finite_area (a : float) :
  (0 <? a) = true -> isfinite (PrimFloat.sqrt (a / pi)) = true -> isfinite a = true.
Proof.
  unfold isfinite. rewrite FloatAxioms.ltb_spec, FloatAxioms.sqrt_spec, FloatAxioms.div_spec.
  unfold SFltb. change (Prim2SF 0) with (S754_zero false).
  by destruct (Prim2SF a) as [[]|[]| |[] m e].
Qed.

Lemma zero_div (y : float) m e : Prim2SF y = S754_finite false m e -> 0 / y = 0.
Proof.
  intros Hy. apply Prim2SF_inj. by rewrite FloatAxioms.div_spec, Hy.
Qed.

Lemma fold_add_all_zero (xs : list float) :
  Forall (fun x => x = 0) xs -> fold_left PrimFloat.add xs 0 = 0.
Proof. induction 1 as [|x xs -> _ IH]; simpl; [done|]. exact IH. Qed.

Lemma map_Forall2 {A B C} (f : A -> C) (g : B -> C) xs ys :
  Forall2 (fun x y => f x = g y) xs ys -> map f xs = map g ys.
Proof. induction 1 as [|x y xs ys Hxy _ IH]; simpl; congruence. Qed.

Lemma map_Forall {A C} (f g : A -> C) xs :
  Forall (fun x => f x = g x) xs -> map f xs = map g xs.
Proof. induction 1 as [|x xs Hx _ IH]; simpl; congruence. Qed.

Lemma zip_with_same {A B C} (f : B -> B -> C) (g : A -> B) xs :
  zip_with f (map g xs) (map g xs) = map (fun x => f (g x) (g x)) xs.
Proof. induction xs as [|x xs IH]; simpl; congruence. Qed.

(** The field of an iteration on polygons that are all in balance: the
    desired areas are the areas, the masses and the mean size error are 0,
    and the force reduction factor is 1. *)
Lemma force_field_balanced (ps : list (Polygon float)) vs epsilon :
  Forall2 (balanced (np_sum (map area ps)) (np_sum vs)) ps vs ->
  (0 < length ps)%nat -> (Z.of_nat (length ps) < 2 ^ 53)%Z ->
  exists m,
    force_field ps vs (np_sum vs) epsilon = Ok m /\
    desired m = map area ps /\
    mass m = map (fun _ => 0) ps /\
    mean_size_error m = 0 /\
    force_reduction_factor m = 1.
Proof.
  intros Hbal Hpos Hlt.
  destruct (force_field_fields ps vs (np_sum vs) epsilon (Forall2_length _ _ _ Hbal))
    as (m & Hff & _ & _ & Hdes & _ & Hmass & Herr & Hfrf).
  assert (desired m = map area ps) as Hd.
  { rewrite Hdes. apply map_Forall2, Forall2_flip.
    eapply Forall2_impl; [exact Hbal|]. intros p v (Ha & _ & Heq). simpl.
    change (@mul float float64) with PrimFloat.mul. change (@div float float64) with PrimFloat.div.
    rewrite Heq. change (area p == of_Z 0)%num with (area p =? 0).
    by rewrite positive_nonzero. }
  assert (Forall (fun p => (0 <? area p) = true /\
                           isfinite (PrimFloat.sqrt (area p / pi)) = true) ps) as Hall.
  { apply Forall_lookup. intros i p Hp.
    destruct (Forall2_lookup_l _ _ _ _ _ Hbal Hp) as (v & _ & (Ha & Hr & _)). done. }
  assert (mass m = map (fun _ => 0) ps) as Hm.
  { rewrite Hmass, Hd, zip_with_same. apply map_Forall.
    eapply Forall_impl; [exact Hall|]. intros p [_ Hr]. by apply sub_same. }
  assert (mean_size_error m = 0) as He.
  { rewrite Herr, Hd, zip_with_same. unfold np_mean, np_sum.
    rewrite fold_add_all_zero.
    - rewrite length_map. destruct (of_Z_count (length ps) Hpos Hlt) as (cm & ce & Hc).
      by apply (zero_div _ cm ce).
    - apply Forall_lookup. intros i x (p & Hp & ->)%map_lookup_Some.
      destruct (proj1 (Forall_lookup _ _) Hall i p Hp) as [Ha Hr].
      assert (np_maximum (area p) (area p) = area p) as ->
        by (unfold np_maximum; by destruct (_ || _)).
      assert (np_minimum (area p) (area p) = area p) as ->
        by (unfold np_minimum; by destruct (_ || _)).
      by apply sub_same, radius_finite_area. }
  exists m. repeat split; try done. by rewrite Hfrf, He.
Qed.

(** C5, as the code has it, in binary64. The polygons are in balance when
    the desired area that line 46 computes for each of them,
    [total_area * weight / total_value], is its area; weights proportional
    to the areas give that only where the roundings of the product and of
    the quotient cancel. For a series of at least one and fewer than [2^53]
    polygons in balance, each of positive area and finite radius, with
    [itermax] at least 1 and [max_size_error] above 0 and not above 100, a
    call that returns has run exactly one round. The first test read the
    initial 100 and not the error; the field had the areas as desired areas,
    masses 0 and a mean size error of 0, which the one line printed shows;
    the second test stopped the loop. The round left every coordinate as it
    was (the negative zero possibly as the positive one), or turned it into
    NaN, and it left the interior rings alone. *)
Theorem proportional_weights_one_still_round
    arg_polygons arg_values itermax max_size_error epsilon verbose ps vs (w w' : world float) out :
  heap w !! arg_polygons = Some (GeoArray ps) ->
  heap w !! arg_values = Some (FloatArray vs) ->
  Forall2 (balanced (np_sum (map area ps)) (np_sum vs)) ps vs ->
  (0 < length ps)%nat -> (Z.of_nat (length ps) < 2 ^ 53)%Z ->
  (0 < itermax)%nat ->
  (100 <? max_size_error) = false -> (0 <? max_size_error) = true ->
  cartogram arg_polygons arg_values itermax max_size_error epsilon verbose w = (w', Ok out) ->
  exists m output,
    force_field ps vs (np_sum vs) epsilon = Ok m /\
    desired m = map area ps /\
    mass m = map (fun _ => 0) ps /\
    mean_size_error m = 0 /\
    stdout w' = stdout w ++ shown verbose [(1%nat, 0)] /\
    heap w' !! out = Some (GeoArray output) /\
    forall i p, ps !! i = Some p ->
      exists p', output !! i = Some p' /\ interiors p' = interiors p /\
        forall j c, exterior p !! j = Some c ->
          exists c', exterior p' !! j = Some c' /\ kept_row c c'.
Proof.
  intros Hp Hv Hbal Hpos Hlt Hiter Hfirst Hsecond Hrun.
  rewrite (cartogram_rounds _ _ _ _ _ _ ps vs w Hp Hv) in Hrun.
  destruct (force_field_balanced ps vs epsilon Hbal Hpos Hlt)
    as (m & Hff & Hdes & Hmass & Herr & Hfrf).
  exists m.
  destruct itermax as [|n]; [lia|]. rewrite rounds_step in Hrun.
  change (of_Z 100 <? max_size_error)%num with (100 <? max_size_error) in Hrun.
  rewrite Hfirst, Hff, Herr in Hrun.
  destruct (update_each (displace_polygon m) ps) as [ps1 [[]|e]] eqn:Hrows; [|done].
  assert (rounds vs (np_sum vs) max_size_error epsilon n 1 0 ps1 = ([], ps1, Ok tt)) as Hrest.
  { destruct n as [|n]; [done|]. rewrite rounds_step.
    change (0 <? max_size_error)%num with (0 <? max_size_error). by rewrite Hsecond. }
  rewrite Hrest in Hrun. inversion Hrun; subst; clear Hrun.
  exists ps1. simpl. repeat split; try done.
  - by apply list_lookup_middle.
  - intros i p Hi. destruct (update_each_lookup _ _ _ _ _ Hrows Hi) as (p' & Hi' & Hp').
    exists p'. split; [done|].
    assert (Forall zero_or_nan (mass m)) as Hzero.
    { rewrite Hmass. apply Forall_lookup. by intros k x (q & _ & ->)%map_lookup_Some. }
    destruct (displace_polygon_kept m p p' Hzero Hp') as (coordinates' & Hext & Hint & Hkept).
    split; [done|]. intros j c Hj.
    destruct (Forall2_lookup_l _ _ _ _ _ Hkept Hj) as (c' & Hc' & Hcc').
    exists c'. split; [|done]. rewrite Hext. by apply close_ring_lookup.
Qed.

(** ** One polygon *)

Section SingleLoop.
Variables (p : Polygon float) (v : float).
Variables (max_size_error epsilon : float).
Hypothesis weight : (0 <? v) = true.
Hypothesis positive : (0 <? area p) = true.
Hypothesis finite : isfinite (PrimFloat.sqrt (area p / pi)) = true.
Hypothesis same : area p * v / v = area p.
Hypothesis closed : head (exterior p) = last (exterior p).
Hypothesis signed :
  Forall (fun c => negative_zero c.1 = false /\ negative_zero c.2 = false) (exterior p).

Lemma single_balanced : Forall2 (balanced (np_sum (map area [p])) (np_sum [v])) [p] [v].
Proof.
  repeat constructor; try done. unfold np_sum. cbn [map fold_left].
  change (@add float float64 (of_Z 0)) with (PrimFloat.add 0).
  by rewrite !zero_add.
Qed.

Lemma single_field :
  exists m,
    force_field [p] [v] (np_sum [v]) epsilon = Ok m /\
    desired m = [area p] /\ mass m = [0] /\ mean_size_error m = 0.
Proof.
  destruct (force_field_balanced [p] [v] epsilon single_balanced) as (m & Hff & Hd & Hm & He & _).
  - simpl. lia.
  - simpl. lia.
  - by exists m.
Qed.

(** A ring with a NaN ends the loop: a further round raises. *)
Lemma rounds_after_nan q remaining : forall iteration previous_error lines out,
  Exists (fun c => nan_row c = true) (exterior q) ->
  rounds [v] (np_sum [v]) max_size_error epsilon remaining iteration previous_error [q]
    = (lines, out, Ok tt) ->
  lines = [] /\ out = [q].
Proof.
  intros iteration previous_error lines out (u & Hu & Hnan)%Exists_exists.
  destruct remaining as [|n]; [by intros [= <- <-]|]. rewrite rounds_step.
  destruct (previous_error <? max_size_error)%num; [by intros [= <- <-]|].
  destruct (force_field [q] [v] (np_sum [v]) epsilon) as [m|]; [|done].
  cbn [update_each].
  by rewrite (displace_polygon_unmatched m q u (nan_row_unmatched u Hnan) Hu).
Qed.

(** The loop on the one polygon: every round runs on the polygon as it was
    given, in the same field, and shows the error 0; the last may have
    turned coordinates into NaN. *)
Lemma rounds_single remaining : forall iteration previous_error lines out,
  rounds [v] (np_sum [v]) max_size_error epsilon remaining iteration previous_error [p]
    = (lines, out, Ok tt) ->
  exists k q,
    (k <= remaining)%nat /\
    lines = zip (seq (S iteration) k) (repeat 0 k) /\
    out = [q] /\
    interiors q = interiors p /\
    (forall j c, exterior p !! j = Some c ->
       exists c', exterior q !! j = Some c' /\
                  (c'.1 = c.1 \/ c'.1 = nan) /\ (c'.2 = c.2 \/ c'.2 = nan)) /\
    (Forall (fun c => nan_row c = false) (exterior q) -> q = p).
Proof.
  assert (forall j c, exterior p !! j = Some c ->
            exists c', exterior p !! j = Some c' /\
                       (c'.1 = c.1 \/ c'.1 = nan) /\ (c'.2 = c.2 \/ c'.2 = nan)) as Hsame.
  { intros j c Hj. exists c. repeat split; try done; by left. }
  induction remaining as [|n IH]; intros iteration previous_error lines out.
  { intros [= <- <-]. exists 0%nat, p. repeat split; try done. }
  rewrite rounds_step.
  destruct (previous_error <? max_size_error)%num.
  { intros [= <- <-]. exists 0%nat, p. repeat split; try done. lia. }
  destruct single_field as (m & -> & Hd & Hm & ->).
  cbn [update_each].
  destruct (displace_polygon m p) as [q|] eqn:Hq; [|done].
  assert (Forall zero_or_nan (mass m)) as Hzero by (rewrite Hm; by repeat constructor).
  destruct (displace_polygon_kept m p q Hzero Hq) as (coordinates' & Hext & Hint & Hkept).
  destruct (rounds [v] (np_sum [v]) max_size_error epsilon n (S iteration) 0 [q])
    as [[lines1 out1] r1] eqn:Hrest.
  intros [= <- <- ->].
  assert (forall j c, exterior p !! j = Some c ->
            exists c', exterior q !! j = Some c' /\
                       (c'.1 = c.1 \/ c'.1 = nan) /\ (c'.2 = c.2 \/ c'.2 = nan)) as Hrows.
  { intros j c Hj. destruct (Forall2_lookup_l _ _ _ _ _ Hkept Hj) as (c' & Hc' & [K1 K2]).
    exists c'. split; [rewrite Hext; by apply close_ring_lookup|].
    destruct (proj1 (Forall_lookup _ _) signed j c Hj) as [S1 S2].
    split; by apply kept_same. }
  assert (Forall (fun c => nan_row c = false) (exterior q) -> q = p) as Hback.
  { intros Hsound.
    assert (coordinates' = exterior p) as ->.
    { apply kept_rows_same; [done|done|].
      apply Forall_forall. intros c Hc. apply (proj1 (Forall_forall _ _) Hsound).
      rewrite Hext. by apply close_ring_keeps. }
    rewrite close_ring_closed in Hext; [destruct p, q; simpl in *; congruence| |done].
    apply Forall_forall. intros c Hc. apply sound_row_equals_itself.
    apply (proj1 (Forall_forall _ _) Hsound). rewrite Hext. by apply close_ring_keeps. }
  destruct (sound_or_nan (exterior q)) as [Hsound|Hnan].
  - rewrite (Hback Hsound) in Hrest.
    destruct (IH _ _ _ _ Hrest) as (k & q' & Hk & -> & -> & Hrest').
    exists (S k), q'. split; [lia|]. by split.
  - destruct (rounds_after_nan q n _ _ _ _ Hnan Hrest) as [-> ->].
    exists 1%nat, q. split; [lia|]. by repeat split.
Qed.

End SingleLoop.

(** C6, as the code has it, in binary64. For a single polygon of positive
    area and finite radius and a positive weight such that the desired
    area line 46 computes, [area * weight / weight], is the area (the
    rounding of the product does not always let it be), the ring being
    closed and holding no negative zero: whatever [itermax] and
    [max_size_error], every iteration that runs has the area as desired
    area, the mass 0 and the mean size error 0, which the lines printed
    show; and the polygon of a call that returns has the interior rings of
    the input and, at every position of its exterior ring, the coordinate
    of the input or NaN. It is the input polygon if no NaN is in it. *)
Theorem single_polygon_is_left_alone
    arg_polygons arg_values itermax max_size_error epsilon verbose p v (w w' : world float) out :
  heap w !! arg_polygons = Some (GeoArray [p]) ->
  heap w !! arg_values = Some (FloatArray [v]) ->
  (0 <? v) = true ->
  (0 <? area p) = true ->
  isfinite (PrimFloat.sqrt (area p / pi)) = true ->
  area p * v / v = area p ->
  head (exterior p) = last (exterior p) ->
  Forall (fun c => negative_zero c.1 = false /\ negative_zero c.2 = false) (exterior p) ->
  cartogram arg_polygons arg_values itermax max_size_error epsilon verbose w = (w', Ok out) ->
  exists m k q,
    force_field [p] [v] (np_sum [v]) epsilon = Ok m /\
    desired m = [area p] /\ mass m = [0] /\ mean_size_error m = 0 /\
    (k <= itermax)%nat /\
    stdout w' = stdout w ++ shown verbose (zip (seq 1 k) (repeat 0 k)) /\
    heap w' !! out = Some (GeoArray [q]) /\
    interiors q = interiors p /\
    (forall j c, exterior p !! j = Some c ->
       exists c', exterior q !! j = Some c' /\
                  (c'.1 = c.1 \/ c'.1 = nan) /\ (c'.2 = c.2 \/ c'.2 = nan)) /\
    (Forall (fun c => nan_row c = false) (exterior q) -> q = p).
Proof.
  intros Hp Hv Hweight Hpos Hfin Hsame Hclosed Hsigned Hrun.
  rewrite (cartogram_rounds _ _ _ _ _ _ [p] [v] w Hp Hv) in Hrun.
  destruct (single_field p v epsilon Hweight Hpos Hfin Hsame) as (m & Hff & Hd & Hm & He).
  destruct (rounds [v] (np_sum [v]) max_size_error epsilon itermax 0 (of_Z 100) [p])
    as [[lines output] [[]|e]] eqn:Hrounds; [|done].
  inversion Hrun; subst; clear Hrun.
  destruct (rounds_single p v max_size_error epsilon Hweight Hpos Hfin Hsame Hclosed Hsigned
              _ _ _ _ _ Hrounds) as (k & q & Hk & -> & -> & Hint & Hrows & Hback).
  exists m, k, q. simpl. repeat split; try done.
  by apply list_lookup_middle.
Qed.

End Balanced.

(** ** The three statements on inputs *)

Section BalanceRuns.
Import Inputs.
Local Open Scope float_scope.

(** The theorem of C5 on the unit square and the square of area 4, with
    the weights 2 and 8, at the defaults. *)
Lemma proportional_weights_one_still_round_witness :
  exists m output,
    force_field [west; far] [2; 8] (np_sum [2; 8]) default_epsilon = Ok m /\
    desired m = map area [west; far] /\
    mass m = map (fun _ => 0) [west; far] /\
    mean_size_error m = 0 /\
    stdout (cartogram 0 1 default_itermax default_max_size_error default_epsilon true
                      (world_of [west; far] [2; 8])).1
      = stdout (world_of [west; far] [2; 8]) ++ shown true [(1%nat, 0)] /\
    heap (cartogram 0 1 default_itermax default_max_size_error default_epsilon true
                    (world_of [west; far] [2; 8])).1 !! 2%nat = Some (GeoArray output) /\
    forall i p, [west; far] !! i = Some p ->
      exists p', output !! i = Some p' /\ interiors p' = interiors p /\
        forall j c, exterior p !! j = Some c ->
          exists c', exterior p' !! j = Some c' /\ kept_row c c'.
Proof.
  apply (proportional_weights_one_still_round 0 1 default_itermax default_max_size_error
           default_epsilon true [west; far] [2; 8] (world_of [west; far] [2; 8])).
  - reflexivity.
  - reflexivity.
  - repeat constructor; vm_compute; reflexivity.
  - simpl. lia.
  - simpl. lia.
  - unfold default_itermax. lia.
  - vm_compute. reflexivity.
  - vm_compute. reflexivity.
  - vm_compute. reflexivity.
Defined.

(** The theorem of C6 on the unit square with the weight 3, with a
    threshold of 0, under which all five iterations run. *)
Lemma single_polygon_is_left_alone_witness :
  exists m k q,
    force_field [west] [3] (np_sum [3]) default_epsilon = Ok m /\
    desired m = [area west] /\ mass m = [0] /\ mean_size_error m = 0 /\
    (k <= default_itermax)%nat /\
    stdout (cartogram 0 1 default_itermax 0 default_epsilon true (world_of [west] [3])).1
      = stdout (world_of [west] [3]) ++ shown true (zip (seq 1 k) (repeat 0 k)) /\
    heap (cartogram 0 1 default_itermax 0 default_epsilon true (world_of [west] [3])).1
      !! 2%nat = Some (GeoArray [q]) /\
    interiors q = interiors west /\
    (forall j c, exterior west !! j = Some c ->
       exists c', exterior q !! j = Some c' /\
                  (c'.1 = c.1 \/ c'.1 = nan) /\ (c'.2 = c.2 \/ c'.2 = nan)) /\
    (Forall (fun c => nan_row c = false) (exterior q) -> q = west).
Proof.
  apply (single_polygon_is_left_alone 0 1 default_itermax 0 default_epsilon true west 3
           (world_of [west] [3])).
  - reflexivity.
  - reflexivity.
  - vm_compute. reflexivity.
  - vm_compute. reflexivity.
  - vm_compute. reflexivity.
  - vm_compute. reflexivity.
  - reflexivity.
  - repeat constructor.
  - vm_compute. reflexivity.
Defined.


End BalanceRuns.
